(** * Stepper driver: a shallow embedding of [src/src/Stepper.cpp]

    The driver is the four-wire variant of the Wiring/Arduino Stepper
    library with a slow-down over the last steps of a move and a motor
    reset after it.  The embedding follows the C++ text statement by
    statement:

    - [int], [long] and [unsigned long] values are integers of [Z] with the
      range checks and wrap-arounds of C++ written out, for every target
      the library is built for (the widths are the fields of [ABI]);
    - a member function that can fail to return a value is a function into
      [outcome]: it returns, or its behaviour is undefined (division by
      zero, signed overflow), or it is still polling the clock when the
      fuel given to the busy-wait loop is used up;
    - the board (pin levels, the calls made to [micros], and a log of what
      the driver did, oldest entry first) is passed explicitly. *)

From Stdlib Require Import ZArith Lia.
From stdpp Require Import base tactics option numbers list gmap.

Local Open Scope Z_scope.

(** ** Integer types of the target *)

(** Widths of [int] and of [long] / [unsigned long].  C++ guarantees at
    least 16 and 32 bits, and [long] is at least as wide as [int]. *)
Class ABI : Type := MkABI {
  int_bits : Z;
  long_bits : Z;
  int_bits_ge : 16 <= int_bits;
  long_bits_ge : 32 <= long_bits;
  int_le_long : int_bits <= long_bits
}.

(** The 8-bit AVR boards (Uno, Nano, Mega): 16-bit [int], 32-bit [long]. *)
Definition AVR : ABI := MkABI 16 32 ltac:(lia) ltac:(lia) ltac:(lia).

(** The 32-bit boards (SAMD, ESP8266, ESP32): 32-bit [int] and [long]. *)
Definition ILP32 : ABI := MkABI 32 32 ltac:(lia) ltac:(lia) ltac:(lia).

(** ** Outcomes of a call *)

(** The error taxonomy the specification names.  The driver itself
    declares no error type: every member function returns [void] (or a
    constant), and the file contains no [throw] and no status code. *)
Inductive error : Type :=
| ConfigurationError
| HardwareError.

Inductive outcome (A : Type) : Type :=
| Returned (a : A)      (* the call returned to its caller *)
| Raised (e : error)    (* the call surfaced an error to its caller *)
| Undefined             (* undefined behaviour was executed *)
| Polling.              (* the busy-wait loop has not finished yet *)

Arguments Returned {A} a.
Arguments Raised {A} e.
Arguments Undefined {A}.
Arguments Polling {A}.

#[global] Instance outcome_ret : MRet outcome := fun A a => Returned a.

#[global] Instance outcome_bind : MBind outcome := fun A B f m =>
  match m with
  | Returned a => f a
  | Raised e => Raised e
  | Undefined => Undefined
  | Polling => Polling
  end.

Section Integers.
Context {abi : ABI}.

Definition INT_MAX : Z := 2 ^ (int_bits - 1) - 1.
Definition INT_MIN : Z := - 2 ^ (int_bits - 1).
Definition LONG_MAX : Z := 2 ^ (long_bits - 1) - 1.
Definition LONG_MIN : Z := - 2 ^ (long_bits - 1).

(** Conversion of an out-of-range value to [int] keeps the low
    [int_bits] bits (two's complement). *)
Definition to_int (x : Z) : Z :=
  (x + 2 ^ (int_bits - 1)) mod 2 ^ int_bits - 2 ^ (int_bits - 1).

(** [unsigned long] arithmetic is arithmetic modulo [2 ^ long_bits]. *)
Definition to_ulong (x : Z) : Z := x mod 2 ^ long_bits.

(** A signed result that does not fit its type is undefined behaviour. *)
Definition as_int (x : Z) : outcome Z :=
  if (INT_MIN <=? x) && (x <=? INT_MAX) then Returned x else Undefined.

Definition as_long (x : Z) : outcome Z :=
  if (LONG_MIN <=? x) && (x <=? LONG_MAX) then Returned x else Undefined.

(** [/] and [%] truncate toward zero; a zero divisor is undefined. *)
Definition int_div (a b : Z) : outcome Z :=
  if b =? 0 then Undefined else as_int (a ÷ b).

Definition int_rem (a b : Z) : outcome Z :=
  if b =? 0 then Undefined else as_int (Z.rem a b).

Definition long_div (a b : Z) : outcome Z :=
  if b =? 0 then Undefined else as_long (a ÷ b).

End Integers.

(** [bitRead(value, bit)] of [Arduino.h]: [((value) >> (bit)) & 0x01].
    The shift of C++ is defined only for counts from [0] to one less
    than the width of [int]; this is the shift on those counts, and
    [step] passes the counts 0 to 6. *)
Definition bitRead (value bit : Z) : Z := Z.land (Z.shiftr value bit) 1.

Definition LOW : Z := 0.
Definition HIGH : Z := 1.

(** The modes of [pinMode]; their numbers differ between the cores. *)
Inductive pin_mode : Type := INPUT | OUTPUT | INPUT_PULLUP.

(** ** The board *)

Inductive event : Type :=
| EvMicros (now : Z)              (* [micros()] returned [now] *)
| EvPinMode (pin : Z) (mode : pin_mode)   (* [pinMode(pin, mode)] *)
| EvDigitalWrite (pin val : Z)    (* [digitalWrite(pin, val)] *)
| EvStepMotor (thisStep : Z)      (* [stepMotor(thisStep)] was entered *)
| EvResetMotor.                   (* [resetMotor()] was entered *)

Record Board : Type := MkBoard {
  polls : nat;            (* calls of [micros()] made so far *)
  levels : gmap Z Z;      (* the level last written to each pin *)
  log : list event        (* what happened, oldest first *)
}.

Definition record (e : event) (b : Board) : Board :=
  MkBoard (polls b) (levels b) (log b ++ [e]).

Definition pinMode (pin : Z) (mode : pin_mode) (b : Board) : Board :=
  record (EvPinMode pin mode) b.

Definition digitalWrite (pin val : Z) (b : Board) : Board :=
  MkBoard (polls b) (<[pin := val]> (levels b)) (log b ++ [EvDigitalWrite pin val]).

(** ** The driver object *)

(** Modelled from the spec: [Stepper.h] is not among the sources, so the
    types of the fields are taken from the data model of the
    specification and from their uses: [number_of_steps] is assigned from
    an [int], [step_delay] is the unsigned microsecond count
    [step_delay_micros] (stored modulo [2 ^ long_bits]), and [motor_pin]
    is an array of four [int]s. *)
Record Stepper : Type := MkStepper {
  number_of_steps : Z;
  step_delay : Z;
  motor_pin : list Z
}.

(** [motor_pin[i]] *)
Definition pin_of (this : Stepper) (i : nat) : Z :=
  default 0 (motor_pin this !! i).

Section Driver.
Context {abi : ABI}.

(** The clock of the board: [clock k] is the time in microseconds at
    which call number [k] of [micros()] is answered.  [micros()] reports
    it as an [unsigned long], so it wraps at [2 ^ long_bits]. *)
Variable clock : nat -> Z.

Definition micros (b : Board) : Z * Board :=
  let now := to_ulong (clock (polls b)) in
  (now, MkBoard (S (polls b)) (levels b) (log b ++ [EvMicros now])).

(** [Stepper::setSpeed]:
    [step_delay = 60L * 1000L * 1000L / number_of_steps / whatSpeed] *)
Definition setSpeed (this : Stepper) (whatSpeed : Z) : outcome Stepper :=
  a ← as_long (60 * 1000);
  b ← as_long (a * 1000);
  c ← long_div b (number_of_steps this);
  d ← long_div c whatSpeed;
  mret (MkStepper (number_of_steps this) (to_ulong d) (motor_pin this)).

(** The four-pin constructor.  The fields not yet assigned when
    [setSpeed] runs are given as [0] and as the empty array. *)
Definition Stepper_new (number_of_steps' whatSpeed : Z)
    (motor_pin_1 motor_pin_2 motor_pin_3 motor_pin_4 : Z) (b : Board)
    : outcome (Stepper * Board) :=
  let this := MkStepper number_of_steps' 0 [] in
  this ← setSpeed this whatSpeed;
  let this := MkStepper (number_of_steps this) (step_delay this)
                [motor_pin_1; motor_pin_2; motor_pin_3; motor_pin_4] in
  mret (this, foldl (fun b i => pinMode (pin_of this i) OUTPUT b) b (seq 0 4)).

(** [Stepper::stepMotor] *)
Definition stepMotor (this : Stepper) (thisStep : Z) (b : Board) : Board :=
  foldl (fun b i => digitalWrite (pin_of this i) (bitRead 0xCC (thisStep + Z.of_nat i)) b)
        (record (EvStepMotor thisStep) b) (seq 0 4).

(** [Stepper::resetMotor] *)
Definition resetMotor (this : Stepper) (b : Board) : Board :=
  foldl (fun b i => digitalWrite (pin_of this i) LOW b)
        (record EvResetMotor b) (seq 0 4).

(** The wait the loop of [step] requires with [steps_left] steps to go:
    [esti = step_delay], and [esti += steps_left * 100] below ten. *)
Definition required_wait (this : Stepper) (steps_left : Z) : outcome Z :=
  let esti := to_int (step_delay this) in
  if steps_left <? 10 then
    bonus ← as_int (steps_left * 100);
    as_int (esti + bonus)
  else mret esti.

(** [int left = now - last_step_time;]: the subtraction is done in
    [unsigned long], its result is then converted to [int]. *)
Definition time_left (now last_step_time : Z) : Z :=
  to_int (to_ulong (now - last_step_time)).

(** [(4 + (steps_left * direction) % 4) % 4] *)
Definition phase_index (steps_left direction : Z) : outcome Z :=
  p ← as_int (steps_left * direction);
  r ← int_rem p 4;
  s ← as_int (4 + r);
  int_rem s 4.

(** The [while (steps_left > 0)] loop of [step]; one unit of [fuel]
    pays for one pass through its body. *)
Fixpoint step_loop (fuel : nat) (this : Stepper)
    (direction steps_left last_step_time : Z) (b : Board) : outcome Board :=
  if 0 <? steps_left then
    match fuel with
    | O => Polling
    | S fuel =>
        let '(now, b) := micros b in
        let left := time_left now last_step_time in
        esti ← required_wait this steps_left;
        if esti <=? left then
          let last_step_time := now in
          steps_left ← as_int (steps_left - 1);
          steps ← phase_index steps_left direction;
          step_loop fuel this direction steps_left last_step_time
                    (stepMotor this steps b)
        else
          step_loop fuel this direction steps_left last_step_time b
    end
  else mret b.

(** [Stepper::step] *)
Definition step (fuel : nat) (this : Stepper) (steps_to_move : Z) (b : Board)
    : outcome (Stepper * Board) :=
  if negb (steps_to_move =? 0) then
    let last_step_time := 0 in
    steps_left ← as_int (Z.abs steps_to_move);
    negated ← as_int (- steps_to_move);
    direction ← int_div steps_left negated;
    b ← step_loop fuel this direction steps_left last_step_time b;
    mret (this, resetMotor this b)
  else mret (this, b).

(** [Stepper::version] *)
Definition version (this : Stepper) : Z := 5.

End Driver.

(** ** Reading the log *)

(** The phase indices passed to [stepMotor], in the order of the calls. *)
Definition emitted (l : list event) : list Z :=
  omap (fun e => match e with EvStepMotor p => Some p | _ => None end) l.

(** The times of the calls of [stepMotor] as the time source measured
    them: each call is stamped with the latest answer of [micros()]
    ([now] before the first answer in [l]). *)
Fixpoint stamps_from (now : Z) (l : list event) : list Z :=
  match l with
  | [] => []
  | EvMicros t :: l => stamps_from t l
  | EvStepMotor _ :: l => now :: stamps_from now l
  | _ :: l => stamps_from now l
  end.

Definition stamps (l : list event) : list Z := stamps_from 0 l.

(** The four writes of [stepMotor] and of [resetMotor]. *)
Definition motor_writes (this : Stepper) (val : nat -> Z) : list event :=
  (fun i => EvDigitalWrite (pin_of this i) (val i)) <$> seq 0 4.

Definition phase_writes (this : Stepper) (thisStep : Z) : list event :=
  motor_writes this (fun i => bitRead 0xCC (thisStep + Z.of_nat i)).

(** ** Vocabulary of the specification *)

(** The step delay with the bonus of the last steps, as the
    specification words it: [step_delay_micros], plus
    [steps_remaining * 100] whenever [steps_remaining < 10]. *)
Definition delay_for (this : Stepper) (steps_remaining : Z) : Z :=
  step_delay this + (if steps_remaining <? 10 then steps_remaining * 100 else 0).

(** Floor modulo of the products [k * direction] for [k] counting down
    from [n - 1] to [0]. *)
Fixpoint phases (direction : Z) (n : nat) : list Z :=
  match n with
  | O => []
  | S k => (Z.of_nat k * direction) mod 4 :: phases direction k
  end.

(** A time source that is read often enough and does not stand still:
    it never runs backwards, two consecutive readings are at most [D]
    microseconds apart, and after every reading there is a later one
    that shows a later time. *)
Record ticking (D : Z) (clock : nat -> Z) : Prop := MkTicking {
  tick_mono : forall k, clock k <= clock (S k);
  tick_step : forall k, clock (S k) - clock k <= D;
  tick_progress : forall k, exists j, clock k < clock j
}.

Section Runs.
Context {abi : ABI}.
Variable this : Stepper.
Variable direction : Z.

(** The passes of the loop of [step], read off its text: the log of a
    loop entered with [steps_left] steps to go and the time stamp
    [last_step_time]. *)
Inductive loop_run : Z -> Z -> list event -> Prop :=
| run_exit steps_left last_step_time :
    steps_left <= 0 ->
    loop_run steps_left last_step_time []
| run_wait steps_left last_step_time now esti evs :
    0 < steps_left ->
    required_wait this steps_left = Returned esti ->
    time_left now last_step_time < esti ->
    loop_run steps_left last_step_time evs ->
    loop_run steps_left last_step_time (EvMicros now :: evs)
| run_move steps_left last_step_time now esti steps evs :
    0 < steps_left ->
    required_wait this steps_left = Returned esti ->
    esti <= time_left now last_step_time ->
    phase_index (steps_left - 1) direction = Returned steps ->
    loop_run (steps_left - 1) now evs ->
    loop_run steps_left last_step_time
      (EvMicros now :: EvStepMotor steps :: phase_writes this steps ++ evs).

(** Every call of [stepMotor] in the list came after the wait the loop
    computed for it had passed on the [int] the loop compares. *)
Fixpoint paced (steps_left last_step_time : Z) (ts : list Z) : Prop :=
  match ts with
  | [] => True
  | t :: ts =>
      (exists esti, required_wait this steps_left = Returned esti
                    /\ esti <= time_left t last_step_time)
      /\ paced (steps_left - 1) t ts
  end.

End Runs.

(** ** More readings of the log *)

(** The pin writes, in the order of the calls. *)
Definition pin_writes (l : list event) : list (Z * Z) :=
  omap (fun e => match e with EvDigitalWrite p v => Some (p, v) | _ => None end) l.

(** The answers of [micros()], in the order of the calls. *)
Definition clock_reads (l : list event) : list Z :=
  omap (fun e => match e with EvMicros t => Some t | _ => None end) l.

(** The four pins the driver owns, [motor_pin[0]] to [motor_pin[3]]. *)
Definition motor_pins (this : Stepper) : list Z := pin_of this <$> seq 0 4.

(** The levels [stepMotor(thisStep)] puts on the four pins. *)
Definition coil_levels (thisStep : Z) : list Z :=
  (fun i => bitRead 0xCC (thisStep + Z.of_nat i)) <$> seq 0 4.

(** The pin writes of one call of [stepMotor], and of [resetMotor]. *)
Definition phase_pattern (this : Stepper) (thisStep : Z) : list (Z * Z) :=
  zip (motor_pins this) (coil_levels thisStep).

Definition reset_pattern (this : Stepper) : list (Z * Z) :=
  (fun p => (p, LOW)) <$> motor_pins this.

(** The delays of the last [n] steps of a move, added up. *)
Fixpoint total_delay (this : Stepper) (n : nat) : Z :=
  match n with
  | O => 0
  | S k => delay_for this (Z.of_nat (S k)) + total_delay this k
  end.

(** ** A bench set-up *)

(** A 200-step motor on pins 8 to 11, set to 60 revolutions per minute. *)
Definition bench_motor : Stepper := MkStepper 200 5000 [8; 9; 10; 11].

(** A board on which nothing has happened yet. *)
Definition bench_board : Board := MkBoard 0 ∅ [].

(** A loop that comes round to [micros()] once every millisecond,
    started [boot] microseconds after power-up. *)
Definition bench_clock (boot : Z) (k : nat) : Z := boot + 1000 * Z.of_nat k.

(** ** Facts about the integer types *)

Section IntegerFacts.
Context {abi : ABI}.

Lemma int_pow_double : 2 ^ int_bits = 2 * 2 ^ (int_bits - 1).
Proof.
  pose proof int_bits_ge.
  rewrite <- Z.pow_succ_r by lia. f_equal. lia.
Qed.

Lemma int_half_ge : 32768 <= 2 ^ (int_bits - 1).
Proof.
  pose proof int_bits_ge.
  change 32768 with (2 ^ 15). apply Z.pow_le_mono_r; lia.
Qed.

Lemma long_half_ge : 2147483648 <= 2 ^ (long_bits - 1).
Proof.
  pose proof long_bits_ge.
  change 2147483648 with (2 ^ 31). apply Z.pow_le_mono_r; lia.
Qed.

Lemma long_pow_double : 2 ^ long_bits = 2 * 2 ^ (long_bits - 1).
Proof.
  pose proof long_bits_ge.
  rewrite <- Z.pow_succ_r by lia. f_equal. lia.
Qed.

Lemma long_pow_split : 2 ^ long_bits = 2 ^ (long_bits - int_bits) * 2 ^ int_bits.
Proof.
  pose proof int_bits_ge. pose proof int_le_long.
  rewrite <- Z.pow_add_r by lia. f_equal. lia.
Qed.

Lemma as_int_fits x : INT_MIN <= x <= INT_MAX -> as_int x = Returned x.
Proof.
  intros [Hlo Hhi]. unfold as_int.
  apply Z.leb_le in Hlo, Hhi. now rewrite Hlo, Hhi.
Qed.

Lemma as_int_returned x y :
  as_int x = Returned y -> y = x /\ INT_MIN <= x <= INT_MAX.
Proof.
  unfold as_int.
  destruct (INT_MIN <=? x) eqn:Hlo; destruct (x <=? INT_MAX) eqn:Hhi;
    simpl; intros Heq; inversion Heq; subst.
  apply Z.leb_le in Hlo, Hhi. auto.
Qed.

Lemma as_long_fits x : LONG_MIN <= x <= LONG_MAX -> as_long x = Returned x.
Proof.
  intros [Hlo Hhi]. unfold as_long.
  apply Z.leb_le in Hlo, Hhi. now rewrite Hlo, Hhi.
Qed.

Lemma to_ulong_range x : 0 <= to_ulong x < 2 ^ long_bits.
Proof.
  pose proof long_half_ge. pose proof long_pow_double.
  unfold to_ulong. apply Z.mod_pos_bound. lia.
Qed.

Lemma to_ulong_small x : 0 <= x < 2 ^ long_bits -> to_ulong x = x.
Proof. intros Hx. unfold to_ulong. now apply Z.mod_small. Qed.

Lemma to_int_range x : INT_MIN <= to_int x <= INT_MAX.
Proof.
  pose proof int_half_ge. pose proof int_pow_double.
  unfold to_int, INT_MIN, INT_MAX.
  pose proof (Z.mod_pos_bound (x + 2 ^ (int_bits - 1)) (2 ^ int_bits)).
  lia.
Qed.

Lemma to_int_fits x : INT_MIN <= x <= INT_MAX -> to_int x = x.
Proof.
  pose proof int_half_ge. pose proof int_pow_double.
  unfold to_int, INT_MIN, INT_MAX. intros Hx.
  rewrite Z.mod_small; lia.
Qed.

(** Adding a multiple of [2 ^ int_bits] does not change the [int]. *)
Lemma to_int_periodic x k : to_int (x + k * 2 ^ int_bits) = to_int x.
Proof.
  unfold to_int.
  replace (x + k * 2 ^ int_bits + 2 ^ (int_bits - 1))
    with (x + 2 ^ (int_bits - 1) + k * 2 ^ int_bits) by lia.
  now rewrite Z_mod_plus_full.
Qed.

(** The [int] only sees the low bits of the [unsigned long]. *)
Lemma to_int_to_ulong x : to_int (to_ulong x) = to_int x.
Proof.
  pose proof long_half_ge. pose proof long_pow_double.
  unfold to_ulong.
  rewrite (Z.mod_eq x (2 ^ long_bits)) by lia.
  rewrite long_pow_split at 1.
  replace (x - 2 ^ (long_bits - int_bits) * 2 ^ int_bits * (x `div` 2 ^ long_bits))
    with (x + (- (2 ^ (long_bits - int_bits) * (x `div` 2 ^ long_bits))) * 2 ^ int_bits)
    by lia.
  apply to_int_periodic.
Qed.

Lemma to_ulong_periodic x k : to_ulong (x + k * 2 ^ long_bits) = to_ulong x.
Proof. unfold to_ulong. apply Z_mod_plus_full. Qed.

Lemma to_ulong_minus_l x y : to_ulong (to_ulong x - y) = to_ulong (x - y).
Proof.
  unfold to_ulong. rewrite Zminus_mod_idemp_l. reflexivity.
Qed.

(** A non-negative [int] made from an [unsigned long] is at most that
    [unsigned long]: the conversion can only drop high bits. *)
Lemma to_int_below_ulong x : 0 <= to_int (to_ulong x) -> to_int (to_ulong x) <= to_ulong x.
Proof.
  pose proof int_half_ge as Hh. pose proof int_pow_double as Hd.
  pose proof (to_ulong_range x) as Hr.
  set (u := to_ulong x) in *. unfold to_int.
  pose proof (Z.mod_pos_bound (u + 2 ^ (int_bits - 1)) (2 ^ int_bits)) as Hm.
  pose proof (Z.mod_eq (u + 2 ^ (int_bits - 1)) (2 ^ int_bits)) as He.
  assert (0 <= (u + 2 ^ (int_bits - 1)) `div` 2 ^ int_bits)
    by (apply Z.div_pos; lia).
  intros Hpos. nia.
Qed.

End IntegerFacts.

(** ** The phase index *)

Section PhaseIndex.
Context {abi : ABI}.

(** Whatever the signs, the index the loop computes is the floor
    modulo of the product. *)
Lemma phase_index_returned steps_left direction steps :
  phase_index steps_left direction = Returned steps ->
  steps = (steps_left * direction) mod 4 /\ 0 <= steps < 4.
Proof.
  unfold phase_index, int_rem. simpl.
  destruct (as_int (steps_left * direction)) as [p| | |] eqn:Hp; simpl; try discriminate.
  apply as_int_returned in Hp as [-> _].
  destruct (as_int (Z.rem (steps_left * direction) 4)) as [r| | |] eqn:Hr;
    simpl; try discriminate.
  apply as_int_returned in Hr as [-> _].
  destruct (as_int (4 + Z.rem (steps_left * direction) 4)) as [s| | |] eqn:Hs;
    simpl; try discriminate.
  apply as_int_returned in Hs as [-> _].
  intros Hret. apply as_int_returned in Hret as [-> _].
  set (x := steps_left * direction).
  Z.to_euclidean_division_equations. lia.
Qed.

Lemma phase_index_fits steps_left direction :
  INT_MIN <= steps_left * direction <= INT_MAX ->
  phase_index steps_left direction = Returned ((steps_left * direction) mod 4).
Proof.
  intros Hx. pose proof int_half_ge as Hh.
  unfold phase_index, int_rem. simpl.
  rewrite (as_int_fits _ Hx). simpl.
  set (x := steps_left * direction) in *.
  assert (Hr : -4 < Z.rem x 4 < 4)
    by (Z.to_euclidean_division_equations; lia).
  rewrite (as_int_fits (Z.rem x 4)) by (unfold INT_MIN, INT_MAX; lia). simpl.
  rewrite (as_int_fits (4 + Z.rem x 4)) by (unfold INT_MIN, INT_MAX; lia). simpl.
  assert (He : Z.rem (4 + Z.rem x 4) 4 = x mod 4)
    by (Z.to_euclidean_division_equations; lia).
  rewrite He. apply as_int_fits.
  pose proof (Z.mod_pos_bound x 4). unfold INT_MIN, INT_MAX. lia.
Qed.

End PhaseIndex.

(** ** The pin writes of [stepMotor] and [resetMotor] *)

Section MotorWrites.
Context {abi : ABI}.
Variable this : Stepper.

Lemma log_stepMotor thisStep b :
  log (stepMotor this thisStep b)
  = log b ++ EvStepMotor thisStep :: phase_writes this thisStep.
Proof.
  unfold stepMotor, phase_writes, motor_writes, digitalWrite, record. simpl.
  now rewrite <- !app_assoc.
Qed.

Lemma polls_stepMotor thisStep b : polls (stepMotor this thisStep b) = polls b.
Proof. reflexivity. Qed.

Lemma log_resetMotor b :
  log (resetMotor this b)
  = log b ++ EvResetMotor :: motor_writes this (fun _ => LOW).
Proof.
  unfold resetMotor, motor_writes, digitalWrite, record. simpl.
  now rewrite <- !app_assoc.
Qed.

Lemma levels_resetMotor b i :
  (i < 4)%nat -> levels (resetMotor this b) !! pin_of this i = Some LOW.
Proof.
  intros Hi. unfold resetMotor, digitalWrite, record. simpl.
  destruct i as [|[|[|[|i]]]]; [| | | | lia];
    repeat (rewrite lookup_insert; case_decide; [reflexivity|]);
    congruence.
Qed.

Lemma emitted_phase_writes thisStep l :
  emitted (phase_writes this thisStep ++ l) = emitted l.
Proof. reflexivity. Qed.

Lemma stamps_from_phase_writes now thisStep l :
  stamps_from now (phase_writes this thisStep ++ l) = stamps_from now l.
Proof. reflexivity. Qed.

End MotorWrites.

(** ** The loop of [step] *)

Section Loop.
Context {abi : ABI}.
Variable clock : nat -> Z.
Variable this : Stepper.
Variable direction : Z.

(** A loop that returned went through passes of [loop_run]. *)
Lemma step_loop_run fuel : forall steps_left last_step_time b b',
  step_loop clock fuel this direction steps_left last_step_time b = Returned b' ->
  exists evs, log b' = log b ++ evs
              /\ loop_run this direction steps_left last_step_time evs.
Proof.
  induction fuel as [|fuel IH]; intros steps_left last b b'; simpl;
    unfold mret, outcome_ret;
    destruct (0 <? steps_left) eqn:Hpos; try discriminate.
  - intros [= <-]. exists []. rewrite app_nil_r. split; [done|].
    apply run_exit. apply Z.ltb_ge in Hpos. lia.
  - apply Z.ltb_lt in Hpos.
    destruct (required_wait this steps_left) as [esti| | |] eqn:Hwait;
      simpl; try discriminate.
    set (now := to_ulong (clock (polls b))).
    destruct (esti <=? time_left now last) eqn:Hdue.
    + apply Z.leb_le in Hdue.
      destruct (as_int (steps_left - 1)) as [m| | |] eqn:Hm; simpl; try discriminate.
      apply as_int_returned in Hm as [-> _].
      destruct (phase_index (steps_left - 1) direction) as [steps| | |] eqn:Hph;
        simpl; try discriminate.
      intros Hrun. apply IH in Hrun as (evs & Hlog & Hrun).
      rewrite log_stepMotor in Hlog. simpl in Hlog.
      exists (EvMicros now :: EvStepMotor steps :: phase_writes this steps ++ evs).
      split.
      * rewrite Hlog. rewrite <- !app_assoc. reflexivity.
      * eapply run_move; eassumption.
    + apply Z.leb_gt in Hdue.
      intros Hrun. apply IH in Hrun as (evs & Hlog & Hrun). simpl in Hlog.
      exists (EvMicros now :: evs). split.
      * rewrite Hlog. rewrite <- !app_assoc. reflexivity.
      * eapply run_wait; eassumption.
  - intros [= <-]. exists []. rewrite app_nil_r. split; [done|].
    apply run_exit. apply Z.ltb_ge in Hpos. lia.
Qed.

(** The indices handed to [stepMotor] do not depend on the clock. *)
Lemma loop_run_emitted steps_left last_step_time evs :
  loop_run this direction steps_left last_step_time evs ->
  emitted evs = phases direction (Z.to_nat steps_left).
Proof.
  induction 1 as [m last Hm | m last now esti evs Hm Hw Hlt Hrun IH
                 | m last now esti steps evs Hm Hw Hle Hph Hrun IH].
  - replace (Z.to_nat m) with O by lia. reflexivity.
  - exact IH.
  - change (emitted (EvMicros now :: EvStepMotor steps :: phase_writes this steps ++ evs))
      with (steps :: emitted (phase_writes this steps ++ evs)).
    rewrite emitted_phase_writes, IH.
    replace (Z.to_nat m) with (S (Z.to_nat (m - 1))) by lia. simpl.
    apply phase_index_returned in Hph as [-> _].
    rewrite Z2Nat.id by lia. reflexivity.
Qed.

(** Each call of [stepMotor] waited for the delay of its pass. *)
Lemma loop_run_paced steps_left last_step_time evs :
  loop_run this direction steps_left last_step_time evs ->
  forall now0, paced this steps_left last_step_time (stamps_from now0 evs).
Proof.
  induction 1 as [m last Hm | m last now esti evs Hm Hw Hlt Hrun IH
                 | m last now esti steps evs Hm Hw Hle Hph Hrun IH];
    intros now0.
  - exact I.
  - apply IH.
  - change (stamps_from now0
              (EvMicros now :: EvStepMotor steps :: phase_writes this steps ++ evs))
      with (now :: stamps_from now (phase_writes this steps ++ evs)).
    rewrite stamps_from_phase_writes. split; [eauto | apply IH].
Qed.

(** Fuel beyond what the loop needs changes nothing. *)
Lemma step_loop_more_fuel fuel : forall extra steps_left last_step_time b b',
  step_loop clock fuel this direction steps_left last_step_time b = Returned b' ->
  step_loop clock (fuel + extra) this direction steps_left last_step_time b
  = Returned b'.
Proof.
  induction fuel as [|fuel IH]; intros extra steps_left last b b'.
  - simpl (step_loop clock 0 _ _ _ _ _).
    destruct (0 <? steps_left) eqn:Hpos; [discriminate|].
    intros Hret. destruct (0 + extra)%nat; simpl; now rewrite Hpos.
  - change (S fuel + extra)%nat with (S (fuel + extra))%nat. simpl.
    destruct (0 <? steps_left); [|trivial].
    destruct (required_wait this steps_left) as [esti| | |]; simpl; try discriminate.
    destruct (esti <=? time_left (to_ulong (clock (polls b))) last).
    + destruct (as_int (steps_left - 1)) as [m| | |]; simpl; try discriminate.
      destruct (phase_index m direction) as [steps| | |]; simpl; try discriminate.
      apply IH.
    + apply IH.
Qed.

(** One stamp per call. *)
Lemma length_stamps_from now0 evs :
  length (stamps_from now0 evs) = length (emitted evs).
Proof.
  revert now0. induction evs as [|[t|p m|p v|s|] evs IH]; intros now0; simpl; auto.
Qed.

End Loop.

(** ** A time source that keeps going *)

Section Clock.
Context {abi : ABI}.
Variable D : Z.
Variable clock : nat -> Z.
Hypothesis Hticking : ticking D clock.

Lemma clock_mono i j : (i <= j)%nat -> clock i <= clock j.
Proof.
  induction 1 as [|j _ IH]; [lia|].
  pose proof (tick_mono D clock Hticking j). lia.
Qed.

Lemma clock_reaches T : exists j, T <= clock j.
Proof.
  assert (Hn : forall n : nat, exists j, clock O + Z.of_nat n <= clock j).
  { induction n as [|n [j Hj]].
    - exists O. lia.
    - destruct (tick_progress D clock Hticking j) as [j' Hj'].
      exists j'. lia. }
  destruct (Hn (Z.to_nat (T - clock O))) as [j Hj].
  exists j. lia.
Qed.

(** The first reading at or after [T] overshoots [T] by less than [D]. *)
Lemma clock_crosses i T :
  clock i < T -> exists j, (i < j)%nat /\ T <= clock j < T + D.
Proof.
  intros Hi.
  destruct (clock_reaches T) as [j0 Hj0].
  assert (Hlt : (i < j0)%nat).
  { destruct (Nat.lt_ge_cases i j0) as [|Hge]; [assumption|].
    apply clock_mono in Hge. lia. }
  assert (Hn : forall n i, clock i < T -> T <= clock (i + n)%nat ->
               exists j, (i < j)%nat /\ T <= clock j < T + D).
  { clear i Hi j0 Hj0 Hlt.
    induction n as [|n IH]; intros i Hi Hn.
    - rewrite Nat.add_0_r in Hn. lia.
    - destruct (Z.lt_ge_cases (clock (S i)) T) as [Hnext|Hnext].
      + destruct (IH (S i) Hnext) as (j & Hj & Hc).
        * replace (S i + n)%nat with (i + S n)%nat by lia. exact Hn.
        * exists j. split; [lia | exact Hc].
      + exists (S i). pose proof (tick_step D clock Hticking i). lia. }
  apply (Hn (j0 - i)%nat i Hi).
  replace (i + (j0 - i))%nat with j0 by lia. exact Hj0.
Qed.

Lemma time_left_of_clock c last :
  time_left (to_ulong c) last = to_int (c - last).
Proof.
  unfold time_left. now rewrite to_ulong_minus_l, to_int_to_ulong.
Qed.

(** Whatever the time stamp, a wait that leaves room for the distance
    between two readings is seen to have passed at some later reading. *)
Lemma due_eventually esti last i :
  0 <= esti -> esti + D <= INT_MAX + 1 ->
  exists j, (i <= j)%nat /\ esti <= time_left (to_ulong (clock j)) last.
Proof.
  intros Hesti Hroom.
  pose proof int_half_ge as Hh. pose proof int_pow_double as Hd.
  set (x := clock i - last).
  set (q := - ((esti - x - 1) `div` 2 ^ int_bits)).
  assert (Hq : x + 1 + (esti - x - 1) `mod` 2 ^ int_bits = esti + q * 2 ^ int_bits).
  { unfold q. rewrite Z.mod_eq by lia. lia. }
  assert (Hpos : 0 < 2 ^ int_bits) by lia.
  pose proof (Z.mod_pos_bound (esti - x - 1) (2 ^ int_bits) Hpos) as Hm.
  clearbody q. set (w := q * 2 ^ int_bits) in *.
  destruct (clock_crosses i (esti + w + last)) as (j & Hj & Hc).
  { unfold x in Hq, Hm. lia. }
  exists j. split; [lia|].
  rewrite time_left_of_clock.
  replace (clock j - last) with ((clock j - last - w) + w) by lia.
  unfold w at 2. rewrite to_int_periodic. clearbody w.
  rewrite to_int_fits; unfold INT_MIN, INT_MAX in *; lia.
Qed.

End Clock.

(** ** The wait of a pass *)

Section Wait.
Context {abi : ABI}.
Variable this : Stepper.
Hypothesis Hfits : 0 <= step_delay this <= INT_MAX - 900.

(** With a delay that fits an [int] with the bonus, the wait of the
    loop is the delay of the specification. *)
Lemma required_wait_fits steps_left :
  0 < steps_left ->
  required_wait this steps_left = Returned (delay_for this steps_left).
Proof.
  intros Hpos. pose proof int_half_ge as Hh.
  unfold required_wait, delay_for.
  rewrite (to_int_fits (step_delay this)) by (unfold INT_MIN, INT_MAX in *; lia).
  destruct (steps_left <? 10) eqn:Hten.
  - apply Z.ltb_lt in Hten.
    rewrite as_int_fits by (unfold INT_MIN, INT_MAX in *; lia). simpl.
    apply as_int_fits. unfold INT_MIN, INT_MAX in *. lia.
  - unfold mret, outcome_ret. f_equal. lia.
Qed.

(** A pass that found the wait over was not early on the time source. *)
Lemma due_is_not_early steps_left esti now last_step_time :
  0 < steps_left ->
  required_wait this steps_left = Returned esti ->
  esti <= time_left now last_step_time ->
  delay_for this steps_left <= to_ulong (now - last_step_time).
Proof.
  intros Hpos Hwait Hdue.
  rewrite required_wait_fits in Hwait by assumption.
  injection Hwait as <-.
  assert (0 <= delay_for this steps_left).
  { unfold delay_for. destruct (steps_left <? 10); lia. }
  unfold time_left in Hdue.
  pose proof (to_int_below_ulong (now - last_step_time)). lia.
Qed.

End Wait.

(** The bound on the delay matters where [int] has 16 bits: the delay of
    a 200-step motor at one revolution per minute, 300000 microseconds,
    is read by the loop as the [int] -27680, while an [int] of 32 bits
    holds it. *)
Example required_wait_on_16_bits :
  @setSpeed AVR (MkStepper 200 0 [8; 9; 10; 11]) 1
  = Returned (MkStepper 200 300000 [8; 9; 10; 11])
  /\ @required_wait AVR (MkStepper 200 300000 [8; 9; 10; 11]) 20 = Returned (-27680)
  /\ @required_wait ILP32 (MkStepper 200 300000 [8; 9; 10; 11]) 20 = Returned 300000.
Proof. repeat split. Qed.

(** ** The loop returns *)

Section Termination.
Context {abi : ABI}.
Variable D : Z.
Variable clock : nat -> Z.
Variable this : Stepper.
Variable direction : Z.
Hypothesis Hticking : ticking D clock.
Hypothesis Hdelay : 0 <= step_delay this.
Hypothesis Hroom : step_delay this + 900 + D <= INT_MAX + 1.
Hypothesis Hdirection : direction = 1 \/ direction = -1.

Lemma distance_pos : 0 < D.
Proof.
  assert (Hn : forall j : nat, clock j <= clock O + Z.of_nat j * D).
  { induction j as [|j IH]; [lia|].
    pose proof (tick_step D clock Hticking j). lia. }
  destruct (tick_progress D clock Hticking O) as [j Hj].
  specialize (Hn j). nia.
Qed.

Lemma delay_fits : 0 <= step_delay this <= INT_MAX - 900.
Proof. pose proof distance_pos. lia. Qed.

Lemma delay_for_bounds steps_left :
  0 < steps_left ->
  step_delay this <= delay_for this steps_left <= step_delay this + 900.
Proof.
  intros Hpos. unfold delay_for.
  destruct (steps_left <? 10) eqn:Hten; [apply Z.ltb_lt in Hten|]; lia.
Qed.

(** One pass that finds the wait not over. *)
Lemma step_loop_wait fuel steps_left last_step_time b :
  0 < steps_left ->
  time_left (micros clock b).1 last_step_time < delay_for this steps_left ->
  step_loop clock (S fuel) this direction steps_left last_step_time b
  = step_loop clock fuel this direction steps_left last_step_time (micros clock b).2.
Proof.
  intros Hpos Hlt. simpl in *.
  apply Z.ltb_lt in Hpos as Hpos'. rewrite Hpos'.
  rewrite (required_wait_fits this delay_fits) by assumption. simpl.
  apply Z.leb_gt in Hlt. now rewrite Hlt.
Qed.

(** One pass that steps the motor. *)
Lemma step_loop_move fuel steps_left last_step_time b :
  0 < steps_left <= INT_MAX ->
  delay_for this steps_left <= time_left (micros clock b).1 last_step_time ->
  step_loop clock (S fuel) this direction steps_left last_step_time b
  = step_loop clock fuel this direction (steps_left - 1) (micros clock b).1
      (stepMotor this (((steps_left - 1) * direction) mod 4) (micros clock b).2).
Proof.
  intros Hpos Hle. pose proof int_half_ge as Hh. simpl in *.
  assert (Hpos' : (0 <? steps_left) = true) by (apply Z.ltb_lt; lia).
  rewrite Hpos'.
  rewrite (required_wait_fits this delay_fits) by lia. simpl.
  apply Z.leb_le in Hle. rewrite Hle.
  rewrite as_int_fits by (unfold INT_MIN, INT_MAX in *; lia). simpl.
  rewrite phase_index_fits; [reflexivity|].
  unfold INT_MIN, INT_MAX in *. destruct Hdirection; subst; lia.
Qed.

(** The loop comes to its end, however many steps are asked for. *)
Lemma step_loop_returns (n : nat) : forall last_step_time b,
  Z.of_nat n <= INT_MAX ->
  exists fuel b',
    step_loop clock fuel this direction (Z.of_nat n) last_step_time b = Returned b'.
Proof.
  pose proof distance_pos as HD.
  induction n as [|n IH]; intros last b Hn.
  - exists O, b. reflexivity.
  - pose proof (delay_for_bounds (Z.of_nat (S n)) ltac:(lia)) as Hb.
    destruct (due_eventually D clock Hticking (delay_for this (Z.of_nat (S n)))
                last (polls b)) as (j & Hj & Hdue); [lia | lia |].
    assert (Hd : forall d b, (polls b + d = j)%nat ->
               exists fuel b',
                 step_loop clock fuel this direction (Z.of_nat (S n)) last b
                 = Returned b').
    { clear b Hj.
      induction d as [|d IHd]; intros b Hb'.
      - destruct (IH (micros clock b).1
                    (stepMotor this (((Z.of_nat (S n) - 1) * direction) mod 4)
                       (micros clock b).2)) as (fuel & b' & Hrun); [lia|].
        exists (S fuel), b'.
        rewrite step_loop_move.
        + replace (Z.of_nat (S n) - 1) with (Z.of_nat n) by lia.
          replace (Z.of_nat (S n) - 1) with (Z.of_nat n) in Hrun by lia.
          exact Hrun.
        + lia.
        + simpl. replace (polls b) with j by lia. exact Hdue.
      - destruct (Z.lt_ge_cases (time_left (micros clock b).1 last)
                    (delay_for this (Z.of_nat (S n)))) as [Hwait|Hgo].
        + destruct (IHd (micros clock b).2) as (fuel & b' & Hrun);
            [simpl; lia|].
          exists (S fuel), b'. now rewrite step_loop_wait by (assumption || lia).
        + destruct (IH (micros clock b).1
                      (stepMotor this (((Z.of_nat (S n) - 1) * direction) mod 4)
                         (micros clock b).2)) as (fuel & b' & Hrun); [lia|].
          exists (S fuel), b'.
          rewrite step_loop_move by (assumption || lia).
          replace (Z.of_nat (S n) - 1) with (Z.of_nat n) by lia.
          replace (Z.of_nat (S n) - 1) with (Z.of_nat n) in Hrun by lia.
          exact Hrun. }
    apply (Hd (j - polls b)%nat b). lia.
Qed.

End Termination.

(** ** Lists of phases and of stamps *)

Lemma length_phases direction n : length (phases direction n) = n.
Proof. induction n as [|n IH]; simpl; congruence. Qed.

Lemma phases_lookup direction n k :
  (k < n)%nat ->
  phases direction n !! k = Some ((Z.of_nat (n - 1 - k) * direction) mod 4).
Proof.
  revert k. induction n as [|n IH]; intros k Hk; [lia|].
  destruct k as [|k].
  - replace (S n - 1 - 0)%nat with n by lia. reflexivity.
  - replace (S n - 1 - S k)%nat with (n - 1 - k)%nat by lia.
    simpl. apply IH. lia.
Qed.

Lemma last_phases direction n : last (phases direction (S n)) = Some 0.
Proof.
  induction n as [|n IH]; [reflexivity|].
  change (phases direction (S (S n)))
    with ((Z.of_nat (S n) * direction) mod 4 :: phases direction (S n)).
  rewrite last_cons, IH. reflexivity.
Qed.

Lemma emitted_app l1 l2 : emitted (l1 ++ l2) = emitted l1 ++ emitted l2.
Proof. apply omap_app. Qed.

Lemma stamps_from_reset this now l :
  stamps_from now (l ++ EvResetMotor :: motor_writes this (fun _ => LOW))
  = stamps_from now l.
Proof.
  revert now. induction l as [|[t|p m|p v|s|] l IH]; intros now; simpl;
    try rewrite IH; reflexivity.
Qed.

Section Paced.
Context {abi : ABI}.
Variable this : Stepper.

(** Two consecutive stamps of a paced list are a pass of the loop apart. *)
Lemma paced_lookup ts : forall steps_left last_step_time k t t',
  paced this steps_left last_step_time ts ->
  ts !! k = Some t -> ts !! S k = Some t' ->
  exists esti, required_wait this (steps_left - Z.of_nat (S k)) = Returned esti
               /\ esti <= time_left t' t.
Proof.
  induction ts as [|t0 ts IH]; intros m last k t t' Hp Hk Hk'; [discriminate|].
  destruct Hp as [_ Hp].
  destruct k as [|k].
  - injection Hk as ->. destruct ts as [|t1 ts]; [discriminate|].
    injection Hk' as ->. destruct Hp as [Hp _].
    replace (m - Z.of_nat 1) with (m - 1) by lia. exact Hp.
  - destruct (IH (m - 1) t0 k t t' Hp Hk Hk') as (esti & Hw & Hd).
    exists esti. split; [|exact Hd].
    replace (m - Z.of_nat (S (S k))) with (m - 1 - Z.of_nat (S k)) by lia.
    exact Hw.
Qed.

End Paced.

(** ** [step] as a whole *)

Section Step.
Context {abi : ABI}.
Variable clock : nat -> Z.
Variable this : Stepper.

(** [steps_left / -steps_to_move] is the sign of [steps_to_move],
    reversed. *)
Lemma direction_reversed steps_to_move :
  steps_to_move <> 0 -> Z.abs steps_to_move ÷ - steps_to_move = - Z.sgn steps_to_move.
Proof.
  intros Hnz. destruct (Z.lt_trichotomy steps_to_move 0) as [Hneg|[Hzero|Hpos]];
    [| contradiction |].
  - rewrite Z.abs_neq, Z.sgn_neg by lia. rewrite Z.quot_same by lia. reflexivity.
  - rewrite Z.abs_eq, Z.sgn_pos by lia.
    rewrite Z.quot_opp_r, Z.quot_same by lia. reflexivity.
Qed.

Lemma direction_unit steps_to_move :
  steps_to_move <> 0 -> - Z.sgn steps_to_move = 1 \/ - Z.sgn steps_to_move = -1.
Proof. intros Hnz. lia. Qed.

(** For a count whose magnitude is an [int], [step] is its loop
    followed by [resetMotor]. *)
Lemma step_nonzero fuel steps_to_move b :
  steps_to_move <> 0 -> INT_MIN < steps_to_move <= INT_MAX ->
  step clock fuel this steps_to_move b
  = (b' ← step_loop clock fuel this (- Z.sgn steps_to_move) (Z.abs steps_to_move) 0 b;
     mret (this, resetMotor this b')).
Proof.
  intros Hnz Hrange. pose proof int_half_ge as Hh. unfold step.
  apply Z.eqb_neq in Hnz as Hnz'. rewrite Hnz'. simpl.
  rewrite as_int_fits by (unfold INT_MIN, INT_MAX in *; lia). simpl.
  rewrite as_int_fits by (unfold INT_MIN, INT_MAX in *; lia). simpl.
  unfold int_div.
  assert (Hneg : (- steps_to_move =? 0) = false) by (apply Z.eqb_neq; lia).
  rewrite Hneg, direction_reversed by assumption.
  rewrite as_int_fits by (unfold INT_MIN, INT_MAX in *; lia). reflexivity.
Qed.

(** A call that returned had a count whose magnitude is an [int]. *)
Lemma step_returned_range fuel steps_to_move b r :
  steps_to_move <> 0 ->
  step clock fuel this steps_to_move b = Returned r ->
  INT_MIN < steps_to_move <= INT_MAX.
Proof.
  intros Hnz. unfold step.
  apply Z.eqb_neq in Hnz as Hnz'. rewrite Hnz'. simpl.
  destruct (as_int (Z.abs steps_to_move)) as [a| | |] eqn:Ha; simpl; try discriminate.
  apply as_int_returned in Ha as [_ Ha]. intros _.
  unfold INT_MIN, INT_MAX in *. lia.
Qed.

(** What a call that returned has done. *)
Lemma step_returned fuel steps_to_move b this' b' :
  steps_to_move <> 0 ->
  step clock fuel this steps_to_move b = Returned (this', b') ->
  this' = this
  /\ exists evs,
       log b' = log b ++ evs ++ EvResetMotor :: motor_writes this (fun _ => LOW)
       /\ loop_run this (- Z.sgn steps_to_move) (Z.abs steps_to_move) 0 evs
       /\ forall i, (i < 4)%nat -> levels b' !! pin_of this i = Some LOW.
Proof.
  intros Hnz Hret.
  pose proof (step_returned_range _ _ _ _ Hnz Hret) as Hrange.
  rewrite step_nonzero in Hret by assumption.
  destruct (step_loop clock fuel this (- Z.sgn steps_to_move) (Z.abs steps_to_move) 0 b)
    as [b1| | |] eqn:Hloop; simpl in Hret; try discriminate.
  injection Hret as <- <-. split; [reflexivity|].
  apply step_loop_run in Hloop as (evs & Hlog & Hrun).
  exists evs. split; [|split].
  - rewrite log_resetMotor, Hlog, <- app_assoc. reflexivity.
  - exact Hrun.
  - intros i Hi. now apply levels_resetMotor.
Qed.

(** On a time source that keeps going, with a delay that leaves room
    for the distance between two readings, the call returns. *)
Lemma step_returns D steps_to_move b :
  INT_MIN < steps_to_move <= INT_MAX ->
  0 <= step_delay this -> step_delay this + 900 + D <= INT_MAX + 1 ->
  ticking D clock ->
  exists fuel b', step clock fuel this steps_to_move b = Returned (this, b').
Proof.
  intros Hrange Hdelay Hroom Hticking.
  destruct (Z.eq_dec steps_to_move 0) as [->|Hnz].
  - exists O, b. reflexivity.
  - destruct (step_loop_returns D clock this (- Z.sgn steps_to_move)
                Hticking Hdelay Hroom (direction_unit _ Hnz)
                (Z.to_nat (Z.abs steps_to_move)) 0 b) as (fuel & b' & Hloop).
    { unfold INT_MIN, INT_MAX in *. lia. }
    rewrite Z2Nat.id in Hloop by lia.
    exists fuel, (resetMotor this b').
    rewrite step_nonzero by assumption. now rewrite Hloop.
Qed.

End Step.

(** ** What a move does *)

Section Moves.
Context {abi : ABI}.
Variable clock : nat -> Z.
Variable this : Stepper.

(** The events of a call that returned: the indices handed to
    [stepMotor] are the floor moduli counted down to [0], every call of
    [stepMotor] waited for its pass, and the call ended in
    [resetMotor]. *)
Lemma step_effects fuel steps_to_move b this' b' :
  steps_to_move <> 0 ->
  step clock fuel this steps_to_move b = Returned (this', b') ->
  this' = this
  /\ exists evs,
       log b' = log b ++ evs
       /\ emitted evs = phases (- Z.sgn steps_to_move) (Z.to_nat (Z.abs steps_to_move))
       /\ paced this (Z.abs steps_to_move) 0 (stamps evs)
       /\ (exists before, evs = before ++ EvResetMotor :: motor_writes this (fun _ => LOW))
       /\ forall i, (i < 4)%nat -> levels b' !! pin_of this i = Some LOW.
Proof.
  intros Hnz Hret.
  destruct (step_returned clock this _ _ _ _ _ Hnz Hret)
    as (-> & evs & Hlog & Hrun & Hlow).
  split; [reflexivity|].
  exists (evs ++ EvResetMotor :: motor_writes this (fun _ => LOW)).
  split; [exact Hlog|]. split; [|split; [|split]].
  - rewrite emitted_app.
    rewrite (loop_run_emitted this _ _ _ _ Hrun).
    change (emitted (EvResetMotor :: motor_writes this (fun _ => LOW))) with (@nil Z).
    apply app_nil_r.
  - unfold stamps. rewrite stamps_from_reset.
    apply (loop_run_paced this _ _ _ _ Hrun).
  - exists evs. reflexivity.
  - exact Hlow.
Qed.

End Moves.

Lemma phases_forward n k p p' :
  phases (-1) n !! k = Some p -> phases (-1) n !! S k = Some p' ->
  p' = (p + 1) mod 4.
Proof.
  intros Hp Hp'.
  assert (Hk : (S k < n)%nat)
    by (apply lookup_lt_Some in Hp'; now rewrite length_phases in Hp').
  rewrite phases_lookup in Hp, Hp' by lia.
  injection Hp as <-. injection Hp' as <-.
  replace (Z.of_nat (n - 1 - k)) with (Z.of_nat (n - 1 - S k) + 1) by lia.
  generalize (Z.of_nat (n - 1 - S k)). intros a.
  Z.to_euclidean_division_equations. lia.
Qed.

Lemma phases_backward n k q q' :
  phases 1 n !! k = Some q -> phases 1 n !! S k = Some q' ->
  q' = (q - 1) mod 4.
Proof.
  intros Hq Hq'.
  assert (Hk : (S k < n)%nat)
    by (apply lookup_lt_Some in Hq'; now rewrite length_phases in Hq').
  rewrite phases_lookup in Hq, Hq' by lia.
  injection Hq as <-. injection Hq' as <-.
  replace (Z.of_nat (n - 1 - k)) with (Z.of_nat (n - 1 - S k) + 1) by lia.
  generalize (Z.of_nat (n - 1 - S k)). intros a.
  Z.to_euclidean_division_equations. lia.
Qed.

Lemma phases_mirror n k p q :
  phases (-1) n !! k = Some p -> phases 1 n !! k = Some q ->
  (p + q) mod 4 = 0.
Proof.
  intros Hp Hq.
  assert (Hk : (k < n)%nat)
    by (apply lookup_lt_Some in Hp; now rewrite length_phases in Hp).
  rewrite phases_lookup in Hp, Hq by lia.
  injection Hp as <-. injection Hq as <-.
  generalize (Z.of_nat (n - 1 - k)). intros a.
  Z.to_euclidean_division_equations. lia.
Qed.

Lemma bench_clock_ticking boot : ticking 1000 (bench_clock boot).
Proof.
  unfold bench_clock. split; intros k; [lia | lia | exists (S k); lia].
Defined.

(** ** The comparison of the loop *)

(** The comparison of the loop is exact as long as the wrapped
    difference of the two time stamps is an [int], and so also across a
    wrap of the counter. *)
Lemma time_left_exact {abi : ABI} now last_step_time :
  to_ulong (now - last_step_time) <= INT_MAX ->
  time_left now last_step_time = to_ulong (now - last_step_time).
Proof.
  intros Hfit. pose proof (to_ulong_range (now - last_step_time)).
  pose proof int_half_ge. unfold time_left.
  apply to_int_fits. unfold INT_MIN, INT_MAX in *. lia.
Qed.

(** On every target a wrapped difference of half the range of the
    counter is not seen as a wait at all. *)
Lemma time_left_half_range {abi : ABI} : time_left (2 ^ (long_bits - 1)) 0 <= 0.
Proof.
  pose proof int_bits_ge as Hi. pose proof int_le_long as Hl.
  pose proof int_half_ge as Hh. pose proof int_pow_double as Hd.
  unfold time_left. rewrite to_int_to_ulong, Z.sub_0_r.
  destruct (Z.eq_dec int_bits long_bits) as [Heq|Hne].
  - rewrite <- Heq. unfold to_int.
    replace (2 ^ (int_bits - 1) + 2 ^ (int_bits - 1)) with (0 + 1 * 2 ^ int_bits) by lia.
    rewrite Z_mod_plus_full, Z.mod_0_l by lia. lia.
  - replace (2 ^ (long_bits - 1))
      with (0 + 2 ^ (long_bits - 1 - int_bits) * 2 ^ int_bits).
    + rewrite to_int_periodic, to_int_fits; unfold INT_MIN, INT_MAX; lia.
    + rewrite <- Z.pow_add_r, Z.add_0_l by lia. f_equal. lia.
Qed.

Example time_left_across_wrap :
  @time_left ILP32 4900 (2 ^ 32 - 100) = 5000
  /\ @time_left AVR 4900 (2 ^ 32 - 100) = 5000.
Proof. split; reflexivity. Qed.

(** ** [setSpeed] *)

Section SetSpeed.
Context {abi : ABI}.
Variable this : Stepper.
Variable whatSpeed : Z.
Hypothesis Hsteps : 0 < number_of_steps this.
Hypothesis Hspeed : 0 < whatSpeed.

Lemma quotient_range : 0 <= 60000000 / number_of_steps this / whatSpeed <= 60000000.
Proof.
  assert (Hc : 0 <= 60000000 / number_of_steps this <= 60000000).
  { split; [apply Z.div_pos; lia|]. apply Z.div_le_upper_bound; nia. }
  split; [apply Z.div_pos; lia|]. apply Z.div_le_upper_bound; nia.
Qed.

(** With positive operands neither division faults, nothing overflows,
    and the quotient is stored as it is. *)
Lemma setSpeed_positive :
  setSpeed this whatSpeed
  = Returned (MkStepper (number_of_steps this)
                (60000000 / number_of_steps this / whatSpeed) (motor_pin this)).
Proof.
  pose proof long_half_ge as Hh. pose proof long_pow_double as Hd.
  pose proof quotient_range as Hq.
  assert (Hc : 0 <= 60000000 / number_of_steps this <= 60000000).
  { split; [apply Z.div_pos; lia|]. apply Z.div_le_upper_bound; nia. }
  unfold setSpeed.
  rewrite (as_long_fits (60 * 1000)) by (unfold LONG_MIN, LONG_MAX; lia). simpl.
  rewrite (as_long_fits (60000 * 1000)) by (unfold LONG_MIN, LONG_MAX; lia). simpl.
  change (60000 * 1000) with 60000000. unfold long_div.
  assert (Hs : (number_of_steps this =? 0) = false) by (apply Z.eqb_neq; lia).
  assert (Hw : (whatSpeed =? 0) = false) by (apply Z.eqb_neq; lia).
  rewrite Hs, Z.quot_div_nonneg by lia.
  rewrite as_long_fits by (unfold LONG_MIN, LONG_MAX; lia). simpl.
  rewrite Hw, Z.quot_div_nonneg by lia.
  rewrite as_long_fits by (unfold LONG_MIN, LONG_MAX; lia). simpl.
  unfold mret, outcome_ret. rewrite to_ulong_small by lia. reflexivity.
Qed.

(** Where [int] has 32 bits or more, a delay set from positive operands
    fits the [int] of the loop with its bonus, and leaves room for
    readings of the clock that are up to half an hour apart. *)
Lemma setSpeed_delay_fits this' :
  32 <= int_bits ->
  setSpeed this whatSpeed = Returned this' ->
  0 <= step_delay this' /\ step_delay this' + 900 + 2000000000 <= INT_MAX + 1.
Proof.
  intros Hwide. rewrite setSpeed_positive. intros [= <-]. simpl.
  pose proof quotient_range as Hq.
  assert (2 ^ 31 <= 2 ^ (int_bits - 1)) by (apply Z.pow_le_mono_r; lia).
  unfold INT_MAX. lia.
Qed.

End SetSpeed.

(** ** The indices of a move *)

Lemma phases_range direction n p : p ∈ phases direction n -> 0 <= p < 4.
Proof.
  induction n as [|n IH]; simpl; intros Hp.
  - now apply elem_of_nil in Hp.
  - apply elem_of_cons in Hp as [->|Hp]; [|now apply IH].
    apply Z.mod_pos_bound. lia.
Qed.

(** ** [setSpeed] and the constructor on all operands *)

Section SetSpeedAll.
Context {abi : ABI}.

Lemma quot_60M_abs x : Z.abs (60000000 ÷ x) <= 60000000.
Proof.
  destruct (Z.eq_dec x 0) as [->|Hx]; [change (60000000 ÷ 0) with 0; lia|].
  Z.to_euclidean_division_equations. nia.
Qed.

Lemma quot_quot_60M_abs x y : Z.abs (60000000 ÷ x ÷ y) <= 60000000.
Proof.
  pose proof (quot_60M_abs x) as Hc. revert Hc.
  generalize (60000000 ÷ x). intros c Hc.
  destruct (Z.eq_dec y 0) as [->|Hy]; [destruct c; unfold Z.quot; simpl; lia|].
  Z.to_euclidean_division_equations. nia.
Qed.

(** [setSpeed] on every pair of operands: there is no result when one of
    the two divisors is zero, and otherwise the truncated quotient is
    stored as an [unsigned long]. *)
Lemma setSpeed_cases this whatSpeed :
  setSpeed this whatSpeed
  = if (number_of_steps this =? 0) || (whatSpeed =? 0) then Undefined
    else Returned (MkStepper (number_of_steps this)
                     (to_ulong (60000000 ÷ number_of_steps this ÷ whatSpeed))
                     (motor_pin this)).
Proof.
  pose proof long_half_ge as Hh.
  pose proof (quot_60M_abs (number_of_steps this)) as Hc.
  pose proof (quot_quot_60M_abs (number_of_steps this) whatSpeed) as Hd.
  unfold setSpeed.
  rewrite (as_long_fits (60 * 1000)) by (unfold LONG_MIN, LONG_MAX; lia). simpl.
  rewrite (as_long_fits (60000 * 1000)) by (unfold LONG_MIN, LONG_MAX; lia). simpl.
  change (60000 * 1000) with 60000000. unfold long_div.
  destruct (number_of_steps this =? 0); [reflexivity|].
  rewrite as_long_fits by (unfold LONG_MIN, LONG_MAX; lia). simpl.
  destruct (whatSpeed =? 0); [reflexivity|].
  rewrite as_long_fits by (unfold LONG_MIN, LONG_MAX; lia). reflexivity.
Qed.

Lemma setSpeed_returned this whatSpeed this' :
  setSpeed this whatSpeed = Returned this' ->
  number_of_steps this <> 0 /\ whatSpeed <> 0
  /\ this' = MkStepper (number_of_steps this)
               (to_ulong (60000000 ÷ number_of_steps this ÷ whatSpeed))
               (motor_pin this).
Proof.
  rewrite setSpeed_cases.
  destruct (number_of_steps this =? 0) eqn:Hn; [discriminate|].
  destruct (whatSpeed =? 0) eqn:Hw; [discriminate|]. simpl.
  apply Z.eqb_neq in Hn, Hw. intros [= <-]. auto.
Qed.

End SetSpeedAll.

(** * The properties of the specification *)

(** C1: where [int] has 16 bits the loop does not keep the delay that
    [setSpeed] stored.  A 200-step motor set to one revolution per minute
    has a delay of 300000 microseconds; [int esti = this->step_delay]
    reads it as -27680, every pass finds that wait over, and a move of
    twelve steps on a clock read once a millisecond calls [stepMotor] in
    each of its first twelve passes, one millisecond apart, and
    returns. *)
Theorem step_outruns_a_long_delay_on_16_bits :
  @setSpeed AVR (MkStepper 200 0 [8; 9; 10; 11]) 1
  = Returned (MkStepper 200 300000 [8; 9; 10; 11])
  /\ delay_for (MkStepper 200 300000 [8; 9; 10; 11]) 11 = 300000
  /\ @required_wait AVR (MkStepper 200 300000 [8; 9; 10; 11]) 11 = Returned (-27680)
  /\ exists b',
       @step AVR (bench_clock 0) 12 (MkStepper 200 300000 [8; 9; 10; 11]) 12 bench_board
       = Returned (MkStepper 200 300000 [8; 9; 10; 11], b')
       /\ length (emitted (log b')) = 12%nat
       /\ stamps (log b')
          = [0; 1000; 2000; 3000; 4000; 5000; 6000; 7000; 8000; 9000; 10000; 11000].
Proof.
  split; [reflexivity|]. split; [reflexivity|]. split; [reflexivity|].
  eexists. split; [vm_compute; reflexivity|].
  split; vm_compute; reflexivity.
Qed.

(** C2, as stated, fails: [setSpeed(0)] and a construction with a speed of
    [0] surface no [ConfigurationError]; the division is carried out, with
    a zero divisor. *)
Lemma setSpeed_zero_is_not_rejected :
  (@setSpeed ILP32 bench_motor 0 = Undefined
   /\ @setSpeed ILP32 bench_motor 0 <> Raised ConfigurationError)
  /\ (@setSpeed AVR bench_motor 0 = Undefined
      /\ @setSpeed AVR bench_motor 0 <> Raised ConfigurationError)
  /\ (@Stepper_new ILP32 200 0 8 9 10 11 bench_board = Undefined
      /\ @Stepper_new ILP32 200 0 8 9 10 11 bench_board <> Raised ConfigurationError).
Proof. repeat split; (reflexivity || discriminate). Qed.

(** C2, amended: [setSpeed] and the constructor have no way to reject a
    speed: whatever the speed, no call surfaces a [ConfigurationError] (or
    any other error) to its caller; and with a nonzero speed and a nonzero
    number of steps the division is carried out: [setSpeed] returns the
    driver with the truncated quotient [60000000 / number_of_steps /
    whatSpeed] stored as its delay, and the constructor returns the
    driver with that delay and the four pins, having declared the pins
    outputs. *)
Theorem setSpeed_never_rejects {abi : ABI} this whatSpeed :
  (forall e, setSpeed this whatSpeed <> Raised e)
  /\ (forall n p1 p2 p3 p4 b e, Stepper_new n whatSpeed p1 p2 p3 p4 b <> Raised e)
  /\ (whatSpeed <> 0 -> number_of_steps this <> 0 ->
      setSpeed this whatSpeed
      = Returned (MkStepper (number_of_steps this)
                    (to_ulong (60000000 ÷ number_of_steps this ÷ whatSpeed))
                    (motor_pin this)))
  /\ (forall n p1 p2 p3 p4 b,
        whatSpeed <> 0 -> n <> 0 ->
        Stepper_new n whatSpeed p1 p2 p3 p4 b
        = Returned (MkStepper n (to_ulong (60000000 ÷ n ÷ whatSpeed)) [p1; p2; p3; p4],
                    MkBoard (polls b) (levels b)
                      (log b ++ [EvPinMode p1 OUTPUT; EvPinMode p2 OUTPUT;
                                 EvPinMode p3 OUTPUT; EvPinMode p4 OUTPUT]))).
Proof.
  split; [|split; [|split]].
  - intros e. rewrite setSpeed_cases.
    destruct ((number_of_steps this =? 0) || (whatSpeed =? 0)); discriminate.
  - intros n p1 p2 p3 p4 b e. unfold Stepper_new. rewrite setSpeed_cases.
    destruct ((number_of_steps (MkStepper n 0 []) =? 0) || (whatSpeed =? 0));
      discriminate.
  - intros Hspeed Hsteps. rewrite setSpeed_cases.
    apply Z.eqb_neq in Hspeed, Hsteps. now rewrite Hspeed, Hsteps.
  - intros n p1 p2 p3 p4 b Hspeed Hsteps. unfold Stepper_new.
    rewrite setSpeed_cases. simpl.
    apply Z.eqb_neq in Hspeed, Hsteps. rewrite Hspeed, Hsteps. simpl.
    unfold mret, outcome_ret, pinMode, record. simpl.
    now rewrite <- !app_assoc.
Qed.

Lemma setSpeed_never_rejects_witness :
  (60 <> 0 /\ number_of_steps bench_motor <> 0 /\ 200 <> 0)
  /\ (forall e, @setSpeed ILP32 bench_motor 60 <> Raised e)
  /\ @setSpeed ILP32 bench_motor 60
     = Returned (MkStepper (number_of_steps bench_motor)
                   (@to_ulong ILP32 (60000000 ÷ number_of_steps bench_motor ÷ 60))
                   (motor_pin bench_motor))
  /\ @Stepper_new ILP32 200 60 8 9 10 11 bench_board
     = Returned (MkStepper 200 (@to_ulong ILP32 (60000000 ÷ 200 ÷ 60)) [8; 9; 10; 11],
                 MkBoard (polls bench_board) (levels bench_board)
                   (log bench_board ++ [EvPinMode 8 OUTPUT; EvPinMode 9 OUTPUT;
                                        EvPinMode 10 OUTPUT; EvPinMode 11 OUTPUT])).
Proof.
  assert (H1 : 60 <> 0) by lia.
  assert (H2 : number_of_steps bench_motor <> 0) by (simpl; lia).
  assert (H3 : 200 <> 0) by lia.
  pose proof (@setSpeed_never_rejects ILP32 bench_motor 60) as (Hno & _ & Hset & Hnew).
  split; [repeat split; assumption|]. split; [exact Hno|].
  split; [exact (Hset H1 H2) | exact (Hnew 200 8 9 10 11 bench_board H1 H3)].
Defined.

(** C3: the subtraction is the wrapping one of [unsigned long], but its
    result is narrowed to [int] before it is compared.  With the initial
    time stamp [0] and a counter at [2 ^ 31 + 2 ^ 15] the wrapped
    difference is far above the wait of [5100] microseconds, yet the
    [int] is negative on both targets, and a move of one step started
    then is still polling thirty milliseconds later, while the same move
    started at power-up has long returned. *)
Theorem time_left_misreads_long_waits :
  (@to_ulong ILP32 (2147516416 - 0) = 2147516416
   /\ @required_wait ILP32 bench_motor 1 = Returned 5100
   /\ @time_left ILP32 2147516416 0 = -2147450880
   /\ @step ILP32 (bench_clock 2147516416) 30 bench_motor 1 bench_board = Polling)
  /\ (@to_ulong AVR (2147516416 - 0) = 2147516416
      /\ @required_wait AVR bench_motor 1 = Returned 5100
      /\ @time_left AVR 2147516416 0 = -32768
      /\ @step AVR (bench_clock 2147516416) 30 bench_motor 1 bench_board = Polling)
  /\ (exists b', @step ILP32 (bench_clock 0) 30 bench_motor 1 bench_board
                 = Returned (bench_motor, b'))
  /\ (exists b', @step AVR (bench_clock 0) 30 bench_motor 1 bench_board
                 = Returned (bench_motor, b')).
Proof.
  repeat split; try (vm_compute; reflexivity);
    eexists; vm_compute; reflexivity.
Qed.




(** C5: the index computed in a pass of the loop is the floor modulo of
    [steps_left * direction] by the table length [4], whatever the signs
    (and it is computed without overflow whenever the product is an
    [int]), and so every index that a call of [step] hands to
    [stepMotor] lies in [0, 4). *)
Theorem phase_index_within_table {abi : ABI} :
  (forall steps_left direction steps,
     phase_index steps_left direction = Returned steps ->
     steps = (steps_left * direction) mod 4 /\ 0 <= steps < 4)
  /\ (forall steps_left direction,
        INT_MIN <= steps_left * direction <= INT_MAX ->
        phase_index steps_left direction
        = Returned ((steps_left * direction) mod 4))
  /\ (forall clock fuel this steps_to_move b this' b',
        step clock fuel this steps_to_move b = Returned (this', b') ->
        exists evs, log b' = log b ++ evs
                    /\ forall p, p ∈ emitted evs -> 0 <= p < 4).
Proof.
  split; [apply phase_index_returned|]. split; [apply phase_index_fits|].
  intros clock fuel this s b this' b' Hret.
  destruct (Z.eq_dec s 0) as [->|Hnz].
  - injection Hret as <- <-. exists []. rewrite app_nil_r. split; [reflexivity|].
    intros p Hp. now apply elem_of_nil in Hp.
  - destruct (step_effects clock this _ _ _ _ _ Hnz Hret)
      as (_ & evs & Hlog & Hemitted & _).
    exists evs. split; [exact Hlog|].
    intros p Hp. rewrite Hemitted in Hp. eapply phases_range, Hp.
Qed.

Lemma phase_index_within_table_witness :
  @phase_index ILP32 3 (-1) = Returned 1
  /\ (1 = (3 * -1) mod 4 /\ 0 <= 1 < 4)
  /\ exists b',
       @step ILP32 (bench_clock 0) 30 bench_motor (-3) bench_board
       = Returned (bench_motor, b')
       /\ exists evs, log b' = log bench_board ++ evs
                      /\ forall p, p ∈ emitted evs -> 0 <= p < 4.
Proof.
  split; [reflexivity|]. split.
  - exact (proj1 (@phase_index_within_table ILP32) 3 (-1) 1 eq_refl).
  - eexists. split; [vm_compute; reflexivity|].
    apply (proj2 (proj2 (@phase_index_within_table ILP32))
             (bench_clock 0) 30%nat bench_motor (-3) bench_board bench_motor).
    vm_compute. reflexivity.
Defined.

(** C6: a call of [step] with a nonzero count that returned ended with
    the four writes of [resetMotor], each of them [LOW], so that every
    motor pin reads low at the return; and on a time source that keeps
    going the call does return. *)
Theorem step_leaves_pins_low {abi : ABI} D clock this steps_to_move b :
  steps_to_move <> 0 ->
  INT_MIN < steps_to_move <= INT_MAX ->
  0 <= step_delay this ->
  step_delay this + 900 + D <= INT_MAX + 1 ->
  ticking D clock ->
  (exists fuel b', step clock fuel this steps_to_move b = Returned (this, b'))
  /\ (forall fuel this' b',
        step clock fuel this steps_to_move b = Returned (this', b') ->
        (exists before,
           log b' = before ++ [EvDigitalWrite (pin_of this 0) LOW;
                               EvDigitalWrite (pin_of this 1) LOW;
                               EvDigitalWrite (pin_of this 2) LOW;
                               EvDigitalWrite (pin_of this 3) LOW])
        /\ forall i, (i < 4)%nat -> levels b' !! pin_of this i = Some LOW).
Proof.
  intros Hnz Hrange Hdelay Hroom Hticking. split.
  - now apply (step_returns clock this D).
  - intros fuel this' b' Hret.
    destruct (step_effects clock this _ _ _ _ _ Hnz Hret)
      as (_ & evs & Hlog & _ & _ & (before & ->) & Hlow).
    split; [|exact Hlow].
    exists (log b ++ before ++ [EvResetMotor]).
    rewrite Hlog, <- !app_assoc. reflexivity.
Qed.

Lemma step_leaves_pins_low_witness :
  (-3 <> 0
   /\ @INT_MIN AVR < -3 <= @INT_MAX AVR
   /\ 0 <= step_delay bench_motor
   /\ step_delay bench_motor + 900 + 1000 <= @INT_MAX AVR + 1
   /\ ticking 1000 (bench_clock 0))
  /\ (exists fuel b',
        @step AVR (bench_clock 0) fuel bench_motor (-3) bench_board
        = Returned (bench_motor, b'))
  /\ (forall fuel this' b',
        @step AVR (bench_clock 0) fuel bench_motor (-3) bench_board
        = Returned (this', b') ->
        (exists before,
           log b' = before ++ [EvDigitalWrite (pin_of bench_motor 0) LOW;
                               EvDigitalWrite (pin_of bench_motor 1) LOW;
                               EvDigitalWrite (pin_of bench_motor 2) LOW;
                               EvDigitalWrite (pin_of bench_motor 3) LOW])
        /\ forall i, (i < 4)%nat -> levels b' !! pin_of bench_motor i = Some LOW).
Proof.
  assert (H1 : -3 <> 0) by lia.
  assert (H2 : @INT_MIN AVR < -3 <= @INT_MAX AVR) by (vm_compute; split; congruence).
  assert (H3 : 0 <= step_delay bench_motor) by (simpl; lia).
  assert (H4 : step_delay bench_motor + 900 + 1000 <= @INT_MAX AVR + 1)
    by (vm_compute; congruence).
  split; [repeat split; try assumption; try apply H2; apply bench_clock_ticking|].
  exact (@step_leaves_pins_low AVR 1000 (bench_clock 0) bench_motor (-3)
           bench_board H1 H2 H3 H4 (bench_clock_ticking 0)).
Defined.

(** C7: with a positive number of steps and a positive speed, [setSpeed]
    stores exactly [60000000 / number_of_steps / whatSpeed] under integer
    division; for 200 steps and 60 revolutions per minute that is 5000. *)
Theorem setSpeed_stores_the_quotient {abi : ABI} this whatSpeed :
  0 < number_of_steps this -> 0 < whatSpeed ->
  setSpeed this whatSpeed
  = Returned (MkStepper (number_of_steps this)
                (60000000 / number_of_steps this / whatSpeed) (motor_pin this))
  /\ (number_of_steps this = 200 -> whatSpeed = 60 ->
      exists this', setSpeed this whatSpeed = Returned this'
                    /\ step_delay this' = 5000).
Proof.
  intros Hsteps Hspeed.
  pose proof (setSpeed_positive this whatSpeed Hsteps Hspeed) as Hret.
  split; [exact Hret|].
  intros H200 H60. eexists. split; [exact Hret|].
  simpl. rewrite H200, H60. reflexivity.
Qed.

Lemma setSpeed_stores_the_quotient_witness :
  (0 < number_of_steps (MkStepper 200 0 [8; 9; 10; 11]) /\ 0 < 60)
  /\ @setSpeed AVR (MkStepper 200 0 [8; 9; 10; 11]) 60
     = Returned (MkStepper 200 (60000000 / 200 / 60) [8; 9; 10; 11])
  /\ exists this', @setSpeed AVR (MkStepper 200 0 [8; 9; 10; 11]) 60 = Returned this'
                   /\ step_delay this' = 5000.
Proof.
  assert (H1 : 0 < number_of_steps (MkStepper 200 0 [8; 9; 10; 11])) by (simpl; lia).
  assert (H2 : 0 < 60) by lia.
  pose proof (@setSpeed_stores_the_quotient AVR (MkStepper 200 0 [8; 9; 10; 11]) 60
                H1 H2) as [Hret Hex].
  split; [split; assumption|]. split; [exact Hret|].
  exact (Hex eq_refl eq_refl).
Defined.

(** C8: for every [N > 0] the moves [step(N)] and [step(-N)] hand the
    same number of indices to [stepMotor], both end on the same index,
    and they walk the cycle of the table in opposite directions: from one
    call of [stepMotor] to the next the index goes up by one modulo [4]
    in the one move and down by one modulo [4] in the other, so that at
    every position the two indices lie at the same distance from the
    final index on either side of it. *)
Theorem step_directions_mirror {abi : ABI} D clock_f clock_b this N b_f b_b :
  0 < N <= INT_MAX ->
  0 <= step_delay this ->
  step_delay this + 900 + D <= INT_MAX + 1 ->
  ticking D clock_f -> ticking D clock_b ->
  (exists fuel_f fuel_b b_f' b_b',
     step clock_f fuel_f this N b_f = Returned (this, b_f')
     /\ step clock_b fuel_b this (- N) b_b = Returned (this, b_b'))
  /\ (forall fuel_f fuel_b this_f this_b b_f' b_b',
        step clock_f fuel_f this N b_f = Returned (this_f, b_f') ->
        step clock_b fuel_b this (- N) b_b = Returned (this_b, b_b') ->
        exists fwd bwd,
          log b_f' = log b_f ++ fwd /\ log b_b' = log b_b ++ bwd
          /\ length (emitted fwd) = Z.to_nat N
          /\ length (emitted bwd) = Z.to_nat N
          /\ last (emitted fwd) = Some 0
          /\ last (emitted bwd) = Some 0
          /\ (forall k p p', emitted fwd !! k = Some p -> emitted fwd !! S k = Some p' ->
                p' = (p + 1) mod 4)
          /\ (forall k q q', emitted bwd !! k = Some q -> emitted bwd !! S k = Some q' ->
                q' = (q - 1) mod 4)
          /\ (forall k p q, emitted fwd !! k = Some p -> emitted bwd !! k = Some q ->
                (p + q) mod 4 = 0)).
Proof.
  intros HN Hdelay Hroom Hticking_f Hticking_b.
  pose proof int_half_ge as Hh.
  assert (HsF : - Z.sgn N = -1) by lia.
  assert (HsB : - Z.sgn (- N) = 1) by lia.
  assert (HaF : Z.to_nat (Z.abs N) = S (Z.to_nat (N - 1))) by lia.
  assert (HaB : Z.to_nat (Z.abs (- N)) = S (Z.to_nat (N - 1))) by lia.
  split.
  - destruct (step_returns clock_f this D N b_f) as (fuel_f & b_f' & Hf);
      try assumption; [unfold INT_MIN, INT_MAX in *; lia|].
    destruct (step_returns clock_b this D (- N) b_b) as (fuel_b & b_b' & Hb);
      try assumption; [unfold INT_MIN, INT_MAX in *; lia|].
    exists fuel_f, fuel_b, b_f', b_b'. split; assumption.
  - intros fuel_f fuel_b this_f this_b b_f' b_b' Hf Hb.
    assert (HnzF : N <> 0) by lia.
    assert (HnzB : - N <> 0) by lia.
    destruct (step_effects clock_f this _ _ _ _ _ HnzF Hf)
      as (_ & fwd & Hlog_f & Hfwd & _).
    destruct (step_effects clock_b this _ _ _ _ _ HnzB Hb)
      as (_ & bwd & Hlog_b & Hbwd & _).
    rewrite HsF, HaF in Hfwd. rewrite HsB, HaB in Hbwd.
    exists fwd, bwd. rewrite Hfwd, Hbwd, !length_phases, !last_phases.
    repeat split; try assumption; try lia.
    + apply phases_forward.
    + apply phases_backward.
    + apply phases_mirror.
Qed.

Lemma step_directions_mirror_witness :
  (0 < 6 <= @INT_MAX ILP32
   /\ 0 <= step_delay bench_motor
   /\ step_delay bench_motor + 900 + 1000 <= @INT_MAX ILP32 + 1
   /\ ticking 1000 (bench_clock 0) /\ ticking 1000 (bench_clock 70))
  /\ exists fuel_f fuel_b b_f' b_b',
       @step ILP32 (bench_clock 0) fuel_f bench_motor 6 bench_board
       = Returned (bench_motor, b_f')
       /\ @step ILP32 (bench_clock 70) fuel_b bench_motor (- 6) bench_board
          = Returned (bench_motor, b_b').
Proof.
  assert (H1 : 0 < 6 <= @INT_MAX ILP32) by (vm_compute; split; congruence).
  assert (H2 : 0 <= step_delay bench_motor) by (simpl; lia).
  assert (H3 : step_delay bench_motor + 900 + 1000 <= @INT_MAX ILP32 + 1)
    by (vm_compute; congruence).
  split; [repeat split; try assumption; try apply H1; apply bench_clock_ticking|].
  exact (proj1 (@step_directions_mirror ILP32 1000 (bench_clock 0) (bench_clock 70)
                  bench_motor 6 bench_board bench_board H1 H2 H3
                  (bench_clock_ticking 0) (bench_clock_ticking 70))).
Defined.

(** The two moves of six steps on the bench. *)
Example step_directions_on_the_bench :
  (forall b', @step ILP32 (bench_clock 0) 40 bench_motor 6 bench_board
              = Returned (bench_motor, b') ->
              emitted (log b') = [3; 0; 1; 2; 3; 0])
  /\ (forall b', @step ILP32 (bench_clock 0) 40 bench_motor (- 6) bench_board
                 = Returned (bench_motor, b') ->
                 emitted (log b') = [1; 0; 3; 2; 1; 0]).
Proof.
  split; intros b'; vm_compute; intros H; injection H as <-; reflexivity.
Qed.

(** C9: [step(0)] is a no-op: it returns at once, whatever the clock, with
    the driver and the board (pin levels, log, calls of [micros()]) as
    they were: no pin is written, not even by [resetMotor]. *)
Theorem step_zero_is_a_noop {abi : ABI} clock fuel this b :
  step clock fuel this 0 b = Returned (this, b)
  /\ forall this' b',
       step clock fuel this 0 b = Returned (this', b') ->
       this' = this /\ log b' = log b /\ levels b' = levels b /\ polls b' = polls b.
Proof.
  assert (Hskip : step clock fuel this 0 b = Returned (this, b)).
  { unfold step. rewrite Z.eqb_refl. reflexivity. }
  split; [exact Hskip|].
  intros this' b' Hret. rewrite Hskip in Hret.
  injection Hret as <- <-. repeat split.
Qed.

Lemma step_zero_is_a_noop_witness :
  @step ILP32 (bench_clock 0) 0 bench_motor 0 bench_board
  = Returned (bench_motor, bench_board)
  /\ (bench_motor = bench_motor /\ log bench_board = log bench_board
      /\ levels bench_board = levels bench_board
      /\ polls bench_board = polls bench_board).
Proof.
  pose proof (@step_zero_is_a_noop ILP32 (bench_clock 0) 0 bench_motor bench_board)
    as [Hskip Hsame].
  split; [exact Hskip | exact (Hsame _ _ Hskip)].
Defined.

(** C10: the indices a call of [step] hands to [stepMotor] are a function
    of [steps_to_move] alone (the floor moduli of the steps left times the
    direction, counted down to zero steps left), whatever the board and
    its history, the clock and the driver; so for every nonzero
    [steps_to_move] the last index handed over is [0]; and on a time
    source that keeps going the call does return. *)
Theorem step_ends_on_phase_zero {abi : ABI} D clock this steps_to_move b :
  steps_to_move <> 0 ->
  INT_MIN < steps_to_move <= INT_MAX ->
  0 <= step_delay this ->
  step_delay this + 900 + D <= INT_MAX + 1 ->
  ticking D clock ->
  (exists fuel b', step clock fuel this steps_to_move b = Returned (this, b'))
  /\ (forall fuel this' b',
        step clock fuel this steps_to_move b = Returned (this', b') ->
        exists evs,
          log b' = log b ++ evs
          /\ emitted evs
             = phases (- Z.sgn steps_to_move) (Z.to_nat (Z.abs steps_to_move))
          /\ last (emitted evs) = Some 0).
Proof.
  intros Hnz Hrange Hdelay Hroom Hticking. split.
  - now apply (step_returns clock this D).
  - intros fuel this' b' Hret.
    destruct (step_effects clock this _ _ _ _ _ Hnz Hret)
      as (_ & evs & Hlog & Hemitted & _).
    exists evs. split; [exact Hlog|]. split; [exact Hemitted|].
    rewrite Hemitted.
    replace (Z.to_nat (Z.abs steps_to_move))
      with (S (Z.to_nat (Z.abs steps_to_move - 1))) by lia.
    apply last_phases.
Qed.

Lemma step_ends_on_phase_zero_witness :
  (-7 <> 0
   /\ @INT_MIN AVR < -7 <= @INT_MAX AVR
   /\ 0 <= step_delay bench_motor
   /\ step_delay bench_motor + 900 + 1000 <= @INT_MAX AVR + 1
   /\ ticking 1000 (bench_clock 123))
  /\ (exists fuel b',
        @step AVR (bench_clock 123) fuel bench_motor (-7) bench_board
        = Returned (bench_motor, b'))
  /\ (forall fuel this' b',
        @step AVR (bench_clock 123) fuel bench_motor (-7) bench_board
        = Returned (this', b') ->
        exists evs,
          log b' = log bench_board ++ evs
          /\ emitted evs = phases (- Z.sgn (-7)) (Z.to_nat (Z.abs (-7)))
          /\ last (emitted evs) = Some 0).
Proof.
  assert (H1 : -7 <> 0) by lia.
  assert (H2 : @INT_MIN AVR < -7 <= @INT_MAX AVR) by (vm_compute; split; congruence).
  assert (H3 : 0 <= step_delay bench_motor) by (simpl; lia).
  assert (H4 : step_delay bench_motor + 900 + 1000 <= @INT_MAX AVR + 1)
    by (vm_compute; congruence).
  split; [repeat split; try assumption; try apply H2; apply bench_clock_ticking|].
  exact (@step_ends_on_phase_zero AVR 1000 (bench_clock 123) bench_motor (-7)
           bench_board H1 H2 H3 H4 (bench_clock_ticking 123)).
Defined.

(** * Further properties of the driver *)

(** X1: [setSpeed] has a result exactly when neither the number of steps
    nor the speed is zero: with a zero divisor the call is undefined,
    whatever the other operand; otherwise, for operands of either sign,
    it returns having stored the truncated quotient as an
    [unsigned long] and kept the number of steps and the pins. *)
Theorem setSpeed_defined_iff_nonzero {abi : ABI} this whatSpeed :
  (number_of_steps this = 0 \/ whatSpeed = 0 -> setSpeed this whatSpeed = Undefined)
  /\ (number_of_steps this <> 0 -> whatSpeed <> 0 ->
      setSpeed this whatSpeed
      = Returned (MkStepper (number_of_steps this)
                    (to_ulong (60000000 ÷ number_of_steps this ÷ whatSpeed))
                    (motor_pin this))).
Proof.
  rewrite setSpeed_cases. split.
  - intros [Hn|Hw].
    + apply Z.eqb_eq in Hn. now rewrite Hn.
    + apply Z.eqb_eq in Hw. rewrite Hw. now rewrite orb_true_r.
  - intros Hn Hw. apply Z.eqb_neq in Hn, Hw. now rewrite Hn, Hw.
Qed.

Lemma setSpeed_defined_iff_nonzero_witness :
  (number_of_steps (MkStepper 0 7 [8; 9; 10; 11]) = 0 \/ 60 = 0)
  /\ @setSpeed AVR (MkStepper 0 7 [8; 9; 10; 11]) 60 = Undefined
  /\ (number_of_steps bench_motor <> 0 /\ -60 <> 0)
  /\ @setSpeed AVR bench_motor (-60)
     = Returned (MkStepper 200 (@to_ulong AVR (60000000 ÷ 200 ÷ -60)) [8; 9; 10; 11]).
Proof.
  assert (H1 : number_of_steps (MkStepper 0 7 [8; 9; 10; 11]) = 0 \/ 60 = 0)
    by (left; reflexivity).
  assert (H2 : number_of_steps bench_motor <> 0) by (simpl; lia).
  assert (H3 : -60 <> 0) by lia.
  split; [exact H1|]. split.
  - exact (proj1 (@setSpeed_defined_iff_nonzero AVR (MkStepper 0 7 [8; 9; 10; 11]) 60) H1).
  - split; [split; assumption|].
    exact (proj2 (@setSpeed_defined_iff_nonzero AVR bench_motor (-60)) H2 H3).
Defined.

(** X2: for a positive number of steps, a higher positive speed never
    gives a longer delay, and for a positive speed more steps per
    revolution never give a longer delay. *)
Theorem setSpeed_delay_antitone {abi : ABI} this1 this2 speed1 speed2 r1 r2 :
  0 < number_of_steps this1 <= number_of_steps this2 ->
  0 < speed1 <= speed2 ->
  setSpeed this1 speed1 = Returned r1 ->
  setSpeed this2 speed2 = Returned r2 ->
  step_delay r2 <= step_delay r1.
Proof.
  intros Hn Hw.
  rewrite (setSpeed_positive this1 speed1) by lia.
  rewrite (setSpeed_positive this2 speed2) by lia.
  intros [= <-] [= <-]. simpl.
  transitivity (60000000 / number_of_steps this1 / speed2).
  - apply Z.div_le_mono; [lia|].
    apply Z.div_le_compat_l; lia.
  - apply Z.div_le_compat_l; [|lia].
    apply Z.div_pos; lia.
Qed.

Lemma setSpeed_delay_antitone_witness :
  (0 < number_of_steps bench_motor <= number_of_steps (MkStepper 2048 0 [])
   /\ 0 < 7 <= 60
   /\ @setSpeed ILP32 bench_motor 7 = Returned (MkStepper 200 42857 [8; 9; 10; 11])
   /\ @setSpeed ILP32 (MkStepper 2048 0 []) 60 = Returned (MkStepper 2048 488 []))
  /\ step_delay (MkStepper 2048 488 []) <= step_delay (MkStepper 200 42857 [8; 9; 10; 11]).
Proof.
  assert (H1 : 0 < number_of_steps bench_motor <= number_of_steps (MkStepper 2048 0 []))
    by (simpl; lia).
  assert (H2 : 0 < 7 <= 60) by lia.
  assert (H3 : @setSpeed ILP32 bench_motor 7
               = Returned (MkStepper 200 42857 [8; 9; 10; 11])) by reflexivity.
  assert (H4 : @setSpeed ILP32 (MkStepper 2048 0 []) 60
               = Returned (MkStepper 2048 488 [])) by reflexivity.
  split; [repeat split; try assumption; lia|].
  exact (@setSpeed_delay_antitone ILP32 _ _ _ _ _ _ H1 H2 H3 H4).
Defined.

(** X3: a call of [setSpeed] forgets the speed set before: after a call
    that returned, a second call gives what it would have given on the
    driver as it was, and the number of steps and the pins are those of
    the driver as it was. *)
Theorem setSpeed_overrides {abi : ABI} this speed1 speed2 this1 :
  setSpeed this speed1 = Returned this1 ->
  setSpeed this1 speed2 = setSpeed this speed2
  /\ number_of_steps this1 = number_of_steps this
  /\ motor_pin this1 = motor_pin this.
Proof.
  intros Hret. apply setSpeed_returned in Hret as (_ & _ & ->).
  rewrite !setSpeed_cases. simpl. auto.
Qed.

Lemma setSpeed_overrides_witness :
  @setSpeed AVR bench_motor 7 = Returned (MkStepper 200 42857 [8; 9; 10; 11])
  /\ @setSpeed AVR (MkStepper 200 42857 [8; 9; 10; 11]) 60 = @setSpeed AVR bench_motor 60
  /\ number_of_steps (MkStepper 200 42857 [8; 9; 10; 11]) = number_of_steps bench_motor
  /\ motor_pin (MkStepper 200 42857 [8; 9; 10; 11]) = motor_pin bench_motor.
Proof.
  assert (H1 : @setSpeed AVR bench_motor 7
               = Returned (MkStepper 200 42857 [8; 9; 10; 11])) by reflexivity.
  split; [exact H1|].
  exact (@setSpeed_overrides AVR bench_motor 7 60 _ H1).
Defined.

(** X4: a negative speed is not refused.  For a positive number of steps
    the quotient is then at most zero; it is stored wrapped into the
    [unsigned long], and, where its magnitude is an [int], the loop of
    [step] reads it back as that negative [int], so that no pass waits
    for more than the bonus of 900 microseconds. *)
Theorem setSpeed_negative_speed {abi : ABI} this whatSpeed this' :
  0 < number_of_steps this -> whatSpeed < 0 ->
  60000000 / number_of_steps this / (- whatSpeed) <= INT_MAX ->
  setSpeed this whatSpeed = Returned this' ->
  to_int (step_delay this') = - (60000000 / number_of_steps this / (- whatSpeed))
  /\ to_int (step_delay this') <= 0
  /\ forall steps_left esti,
       required_wait this' steps_left = Returned esti -> esti <= 900.
Proof.
  intros Hn Hw Hfit Hret. pose proof int_half_ge as Hh.
  apply setSpeed_returned in Hret as (_ & _ & ->). simpl.
  assert (Hq : 60000000 ÷ number_of_steps this ÷ whatSpeed
               = - (60000000 / number_of_steps this / (- whatSpeed))).
  { rewrite (Z.quot_div_nonneg 60000000) by lia.
    replace whatSpeed with (- - whatSpeed) at 1 by lia.
    rewrite Z.quot_opp_r by lia.
    rewrite Z.quot_div_nonneg; [reflexivity | apply Z.div_pos; lia | lia]. }
  assert (Hpos : 0 <= 60000000 / number_of_steps this / (- whatSpeed))
    by (apply Z.div_pos; [apply Z.div_pos; lia | lia]).
  assert (Hint : to_int (to_ulong (60000000 ÷ number_of_steps this ÷ whatSpeed))
                 = - (60000000 / number_of_steps this / (- whatSpeed))).
  { rewrite to_int_to_ulong, Hq.
    apply to_int_fits. unfold INT_MIN, INT_MAX in *. lia. }
  split; [exact Hint|]. split; [lia|].
  intros m esti. unfold required_wait. simpl. rewrite Hint.
  destruct (m <? 10) eqn:Hm.
  - apply Z.ltb_lt in Hm.
    destruct (as_int (m * 100)) as [x| | |] eqn:Hx; simpl; try discriminate.
    apply as_int_returned in Hx as [-> _].
    intros Hsum. apply as_int_returned in Hsum as [-> _]. lia.
  - intros [= <-]. lia.
Qed.

Lemma setSpeed_negative_speed_witness :
  (0 < number_of_steps bench_motor /\ -60 < 0
   /\ 60000000 / number_of_steps bench_motor / (- -60) <= @INT_MAX AVR
   /\ @setSpeed AVR bench_motor (-60)
      = Returned (MkStepper 200 4294962296 [8; 9; 10; 11]))
  /\ @to_int AVR (step_delay (MkStepper 200 4294962296 [8; 9; 10; 11]))
     = - (60000000 / number_of_steps bench_motor / (- -60))
  /\ @to_int AVR (step_delay (MkStepper 200 4294962296 [8; 9; 10; 11])) <= 0
  /\ forall steps_left esti,
       @required_wait AVR (MkStepper 200 4294962296 [8; 9; 10; 11]) steps_left
       = Returned esti -> esti <= 900.
Proof.
  assert (H1 : 0 < number_of_steps bench_motor) by (simpl; lia).
  assert (H2 : -60 < 0) by lia.
  assert (H3 : 60000000 / number_of_steps bench_motor / (- -60) <= @INT_MAX AVR)
    by (vm_compute; congruence).
  assert (H4 : @setSpeed AVR bench_motor (-60)
               = Returned (MkStepper 200 4294962296 [8; 9; 10; 11])) by reflexivity.
  split; [repeat split; try assumption; lia|].
  exact (@setSpeed_negative_speed AVR bench_motor (-60) _ H1 H2 H3 H4).
Defined.

(** ** The constructor *)

(** X5: with a nonzero number of steps and a nonzero speed the
    constructor returns a driver that holds the number of steps, the
    delay [setSpeed] computes, and the four pins in the order given; on
    the board it declares exactly these four pins as outputs, in that
    order, writes no level to any pin and does not read the clock.  With
    a zero number of steps or a zero speed it has no result. *)
Theorem Stepper_new_effects {abi : ABI} number_of_steps' whatSpeed p1 p2 p3 p4 b :
  (number_of_steps' = 0 \/ whatSpeed = 0 ->
   Stepper_new number_of_steps' whatSpeed p1 p2 p3 p4 b = Undefined)
  /\ (number_of_steps' <> 0 -> whatSpeed <> 0 ->
      exists this b',
        Stepper_new number_of_steps' whatSpeed p1 p2 p3 p4 b = Returned (this, b')
        /\ number_of_steps this = number_of_steps'
        /\ step_delay this = to_ulong (60000000 ÷ number_of_steps' ÷ whatSpeed)
        /\ motor_pins this = [p1; p2; p3; p4]
        /\ log b' = log b ++ [EvPinMode p1 OUTPUT; EvPinMode p2 OUTPUT;
                              EvPinMode p3 OUTPUT; EvPinMode p4 OUTPUT]
        /\ levels b' = levels b
        /\ polls b' = polls b).
Proof.
  unfold Stepper_new. rewrite setSpeed_cases. simpl. split.
  - intros [Hn|Hw].
    + apply Z.eqb_eq in Hn. now rewrite Hn.
    + apply Z.eqb_eq in Hw. rewrite Hw. now rewrite orb_true_r.
  - intros Hn Hw. apply Z.eqb_neq in Hn, Hw. rewrite Hn, Hw. simpl.
    eexists _, _. split; [reflexivity|]. simpl.
    repeat split. now rewrite <- !app_assoc.
Qed.

Lemma Stepper_new_effects_witness :
  (200 <> 0 /\ 60 <> 0)
  /\ exists this b',
       @Stepper_new ILP32 200 60 8 9 10 11 bench_board = Returned (this, b')
       /\ number_of_steps this = 200
       /\ step_delay this = @to_ulong ILP32 (60000000 ÷ 200 ÷ 60)
       /\ motor_pins this = [8; 9; 10; 11]
       /\ log b' = log bench_board ++ [EvPinMode 8 OUTPUT; EvPinMode 9 OUTPUT;
                                       EvPinMode 10 OUTPUT; EvPinMode 11 OUTPUT]
       /\ levels b' = levels bench_board
       /\ polls b' = polls bench_board.
Proof.
  assert (H1 : 200 <> 0) by lia.
  assert (H2 : 60 <> 0) by lia.
  split; [split; assumption|].
  exact (proj2 (@Stepper_new_effects ILP32 200 60 8 9 10 11 bench_board) H1 H2).
Defined.

(** ** The pin writes of one call *)

Lemma pin_writes_app l1 l2 : pin_writes (l1 ++ l2) = pin_writes l1 ++ pin_writes l2.
Proof. apply omap_app. Qed.

Lemma pin_writes_phase_writes this thisStep :
  pin_writes (phase_writes this thisStep) = phase_pattern this thisStep.
Proof. reflexivity. Qed.

Lemma pin_writes_reset this :
  pin_writes (EvResetMotor :: motor_writes this (fun _ => LOW)) = reset_pattern this.
Proof. reflexivity. Qed.

Lemma motor_pins_unfold this :
  motor_pins this = [pin_of this 0; pin_of this 1; pin_of this 2; pin_of this 3].
Proof. reflexivity. Qed.

Lemma elem_of_motor_pins this p :
  p ∈ motor_pins this <->
  p = pin_of this 0 \/ p = pin_of this 1 \/ p = pin_of this 2 \/ p = pin_of this 3.
Proof.
  rewrite motor_pins_unfold, !elem_of_cons, elem_of_nil. tauto.
Qed.

Lemma pin_of_motor_pins this i : (i < 4)%nat -> pin_of this i ∈ motor_pins this.
Proof.
  intros Hi. apply elem_of_motor_pins.
  destruct i as [|[|[|[|i]]]]; [tauto | tauto | tauto | tauto | lia].
Qed.

Lemma motor_pins_lookup this i :
  (i < 4)%nat -> motor_pins this !! i = Some (pin_of this i).
Proof.
  intros Hi. destruct i as [|[|[|[|i]]]]; [reflexivity.. | lia].
Qed.

Lemma motor_pins_distinct this :
  NoDup (motor_pins this) ->
  forall i j, (i < 4)%nat -> (j < 4)%nat -> i <> j -> pin_of this i <> pin_of this j.
Proof.
  intros Hnodup i j Hi Hj Hne Heq. apply Hne.
  apply (proj1 (NoDup_alt (motor_pins this)) Hnodup i j (pin_of this i)).
  - now apply motor_pins_lookup.
  - rewrite Heq. now apply motor_pins_lookup.
Qed.

(** A pin that is none of the four keeps its level through [stepMotor]. *)
Lemma stepMotor_frame this thisStep b p :
  p ∉ motor_pins this -> levels (stepMotor this thisStep b) !! p = levels b !! p.
Proof.
  rewrite elem_of_motor_pins. intros Hp.
  unfold stepMotor, digitalWrite, record. simpl.
  rewrite !lookup_insert_ne by intuition congruence. reflexivity.
Qed.

(** The levels after [resetMotor], pin by pin. *)
Lemma levels_resetMotor_cases this b p :
  levels (resetMotor this b) !! p
  = if decide (p ∈ motor_pins this) then Some LOW else levels b !! p.
Proof.
  unfold resetMotor, digitalWrite, record. simpl.
  case_decide as Hp.
  - repeat (rewrite lookup_insert; case_decide; [reflexivity|]).
    apply elem_of_motor_pins in Hp. exfalso. intuition congruence.
  - rewrite elem_of_motor_pins in Hp.
    rewrite !lookup_insert_ne by intuition congruence. reflexivity.
Qed.

Ltac coil_case :=
  split; [reflexivity|];
  split; [repeat (constructor; [(left; reflexivity) || (right; reflexivity)|]);
          constructor|];
  repeat split.

(** X6: for each of the four phases [stepMotor] writes the four pins
    once each, in the order of the array, with levels that are [LOW] or
    [HIGH]; exactly two of the four are [HIGH]; and the levels of the next
    phase (the first again after the last) are those of this phase moved
    by one pin. *)
Theorem stepMotor_two_coils this thisStep b :
  0 <= thisStep < 4 ->
  exists v0 v1 v2 v3,
    log (stepMotor this thisStep b)
    = log b ++ [EvStepMotor thisStep;
                EvDigitalWrite (pin_of this 0) v0; EvDigitalWrite (pin_of this 1) v1;
                EvDigitalWrite (pin_of this 2) v2; EvDigitalWrite (pin_of this 3) v3]
    /\ Forall (fun v => v = LOW \/ v = HIGH) [v0; v1; v2; v3]
    /\ v0 + v1 + v2 + v3 = 2
    /\ coil_levels thisStep = [v0; v1; v2; v3]
    /\ coil_levels ((thisStep + 1) mod 4) = [v1; v2; v3; v0].
Proof.
  intros Hstep. rewrite log_stepMotor.
  assert (Hcases : thisStep = 0 \/ thisStep = 1 \/ thisStep = 2 \/ thisStep = 3) by lia.
  destruct Hcases as [-> | [-> | [-> | ->]]].
  - exists 0, 0, 1, 1. coil_case.
  - exists 0, 1, 1, 0. coil_case.
  - exists 1, 1, 0, 0. coil_case.
  - exists 1, 0, 0, 1. coil_case.
Qed.

Lemma stepMotor_two_coils_witness :
  0 <= 3 < 4
  /\ exists v0 v1 v2 v3,
       log (stepMotor bench_motor 3 bench_board)
       = log bench_board
           ++ [EvStepMotor 3;
               EvDigitalWrite (pin_of bench_motor 0) v0;
               EvDigitalWrite (pin_of bench_motor 1) v1;
               EvDigitalWrite (pin_of bench_motor 2) v2;
               EvDigitalWrite (pin_of bench_motor 3) v3]
       /\ Forall (fun v => v = LOW \/ v = HIGH) [v0; v1; v2; v3]
       /\ v0 + v1 + v2 + v3 = 2
       /\ coil_levels 3 = [v0; v1; v2; v3]
       /\ coil_levels ((3 + 1) mod 4) = [v1; v2; v3; v0].
Proof.
  assert (H1 : 0 <= 3 < 4) by lia.
  split; [exact H1|].
  exact (stepMotor_two_coils bench_motor 3 bench_board H1).
Defined.

(** X7: for a phase index from 0 to 3 and four pins that are different
    pins, after [stepMotor] each of the pins reads the level of its coil
    in the phase, every other pin of the board reads what it read before,
    and the clock has not been read. *)
Theorem stepMotor_levels this thisStep b :
  0 <= thisStep < 4 ->
  NoDup (motor_pins this) ->
  (forall i, (i < 4)%nat ->
     levels (stepMotor this thisStep b) !! pin_of this i
     = Some (bitRead 0xCC (thisStep + Z.of_nat i))
     /\ coil_levels thisStep !! i = Some (bitRead 0xCC (thisStep + Z.of_nat i)))
  /\ (forall p, p ∉ motor_pins this ->
        levels (stepMotor this thisStep b) !! p = levels b !! p)
  /\ polls (stepMotor this thisStep b) = polls b.
Proof.
  intros Hstep Hnodup.
  split; [|split; [intros p; apply stepMotor_frame | reflexivity]].
  pose proof (motor_pins_distinct this Hnodup) as Hd.
  intros i Hi. unfold stepMotor, digitalWrite, record. simpl.
  destruct i as [|[|[|[|i]]]]; [| | | | lia]; (split; [|reflexivity]).
  - do 3 (rewrite lookup_insert_ne by (apply Hd; lia)). apply lookup_insert_eq.
  - do 2 (rewrite lookup_insert_ne by (apply Hd; lia)). apply lookup_insert_eq.
  - rewrite lookup_insert_ne by (apply Hd; lia). apply lookup_insert_eq.
  - apply lookup_insert_eq.
Qed.

Lemma stepMotor_levels_witness :
  (0 <= 1 < 4 /\ NoDup (motor_pins bench_motor))
  /\ (forall i, (i < 4)%nat ->
        levels (stepMotor bench_motor 1 bench_board) !! pin_of bench_motor i
        = Some (bitRead 0xCC (1 + Z.of_nat i))
        /\ coil_levels 1 !! i = Some (bitRead 0xCC (1 + Z.of_nat i)))
  /\ (forall p, p ∉ motor_pins bench_motor ->
        levels (stepMotor bench_motor 1 bench_board) !! p = levels bench_board !! p)
  /\ polls (stepMotor bench_motor 1 bench_board) = polls bench_board.
Proof.
  assert (H0 : 0 <= 1 < 4) by lia.
  assert (H1 : NoDup (motor_pins bench_motor)).
  { apply (bool_decide_unpack _). vm_compute. exact I. }
  split; [split; assumption|].
  exact (stepMotor_levels bench_motor 1 bench_board H0 H1).
Defined.

(** X8: after [resetMotor] each of the four pins reads [LOW] and every
    other pin reads what it read before, whatever the pins are (also when
    two of them are the same pin); a second [resetMotor] changes no level;
    and the clock has not been read. *)
Theorem resetMotor_levels this b :
  (forall p, levels (resetMotor this b) !! p
             = if decide (p ∈ motor_pins this) then Some LOW else levels b !! p)
  /\ levels (resetMotor this (resetMotor this b)) = levels (resetMotor this b)
  /\ polls (resetMotor this b) = polls b.
Proof.
  split; [apply levels_resetMotor_cases|]. split; [|reflexivity].
  apply map_eq. intros p. rewrite !levels_resetMotor_cases.
  case_decide; reflexivity.
Qed.

Lemma resetMotor_levels_witness :
  (forall p, levels (resetMotor bench_motor bench_board) !! p
             = if decide (p ∈ motor_pins bench_motor) then Some LOW
               else levels bench_board !! p)
  /\ levels (resetMotor bench_motor (resetMotor bench_motor bench_board))
     = levels (resetMotor bench_motor bench_board)
  /\ polls (resetMotor bench_motor bench_board) = polls bench_board.
Proof. exact (resetMotor_levels bench_motor bench_board). Defined.

(** ** The board through the loop *)

Lemma clock_reads_app l1 l2 : clock_reads (l1 ++ l2) = clock_reads l1 ++ clock_reads l2.
Proof. apply omap_app. Qed.

Section LoopBoard.
Context {abi : ABI}.
Variable clock : nat -> Z.
Variable this : Stepper.
Variable direction : Z.

(** The loop leaves the pins that are none of the four alone, and reads
    the clock once in each of its passes. *)
Lemma step_loop_board fuel : forall steps_left last_step_time b b',
  step_loop clock fuel this direction steps_left last_step_time b = Returned b' ->
  (forall p, p ∉ motor_pins this -> levels b' !! p = levels b !! p)
  /\ (polls b <= polls b' <= polls b + fuel)%nat
  /\ exists evs, log b' = log b ++ evs
                 /\ length (clock_reads evs) = (polls b' - polls b)%nat.
Proof.
  induction fuel as [|fuel IH]; intros steps_left last b b'; simpl;
    unfold mret, outcome_ret;
    destruct (0 <? steps_left) eqn:Hpos; try discriminate.
  - intros [= <-]. split; [auto|]. split; [lia|].
    exists []. rewrite app_nil_r, Nat.sub_diag. auto.
  - destruct (required_wait this steps_left) as [esti| | |] eqn:Hwait;
      simpl; try discriminate.
    set (now := to_ulong (clock (polls b))).
    destruct (esti <=? time_left now last) eqn:Hdue.
    + destruct (as_int (steps_left - 1)) as [m| | |] eqn:Hm; simpl; try discriminate.
      destruct (phase_index m direction) as [steps| | |] eqn:Hph;
        simpl; try discriminate.
      intros Hrun. apply IH in Hrun as (Hframe & Hpolls & evs & Hlog & Hreads).
      rewrite polls_stepMotor in Hpolls, Hreads. simpl in Hpolls, Hreads.
      rewrite log_stepMotor in Hlog. simpl in Hlog.
      split; [|split; [lia|]].
      * intros p Hp. rewrite (Hframe p Hp). now rewrite stepMotor_frame.
      * exists (EvMicros now :: EvStepMotor steps :: phase_writes this steps ++ evs).
        split; [rewrite Hlog, <- !app_assoc; reflexivity|].
        change (clock_reads
                  (EvMicros now :: EvStepMotor steps :: phase_writes this steps ++ evs))
          with (now :: clock_reads evs).
        simpl. lia.
    + intros Hrun. apply IH in Hrun as (Hframe & Hpolls & evs & Hlog & Hreads).
      simpl in Hframe, Hpolls, Hlog, Hreads.
      split; [exact Hframe|]. split; [lia|].
      exists (EvMicros now :: evs).
      split; [rewrite Hlog, <- !app_assoc; reflexivity|]. simpl. lia.
  - intros [= <-]. split; [auto|]. split; [lia|].
    exists []. rewrite app_nil_r, Nat.sub_diag. auto.
Qed.

End LoopBoard.

Section RunFacts.
Context {abi : ABI}.
Variable this : Stepper.
Variable direction : Z.

(** The pin writes of the loop are the patterns of its phases, one after
    the other, whatever the clock showed. *)
Lemma loop_run_pin_writes steps_left last_step_time evs :
  loop_run this direction steps_left last_step_time evs ->
  pin_writes evs
  = concat (phase_pattern this <$> phases direction (Z.to_nat steps_left)).
Proof.
  induction 1 as [m last Hm | m last now esti evs Hm Hw Hlt Hrun IH
                 | m last now esti steps evs Hm Hw Hle Hph Hrun IH].
  - replace (Z.to_nat m) with O by lia. reflexivity.
  - exact IH.
  - change (pin_writes (EvMicros now :: EvStepMotor steps :: phase_writes this steps ++ evs))
      with (pin_writes (phase_writes this steps ++ evs)).
    rewrite pin_writes_app, pin_writes_phase_writes, IH.
    replace (Z.to_nat m) with (S (Z.to_nat (m - 1))) by lia. simpl.
    apply phase_index_returned in Hph as [-> _].
    rewrite Z2Nat.id by lia. reflexivity.
Qed.

(** The clock is read at least once for each call of [stepMotor]. *)
Lemma loop_run_reads steps_left last_step_time evs :
  loop_run this direction steps_left last_step_time evs ->
  (length (emitted evs) <= length (clock_reads evs))%nat.
Proof.
  induction 1 as [m last Hm | m last now esti evs Hm Hw Hlt Hrun IH
                 | m last now esti steps evs Hm Hw Hle Hph Hrun IH].
  - reflexivity.
  - simpl. lia.
  - change (emitted (EvMicros now :: EvStepMotor steps :: phase_writes this steps ++ evs))
      with (steps :: emitted (phase_writes this steps ++ evs)).
    change (clock_reads (EvMicros now :: EvStepMotor steps :: phase_writes this steps ++ evs))
      with (now :: clock_reads evs).
    rewrite emitted_phase_writes. simpl. lia.
Qed.

End RunFacts.

(** ** The board through a move *)

Section MoveBoard.
Context {abi : ABI}.
Variable clock : nat -> Z.
Variable this : Stepper.

(** A call that returned is its loop followed by [resetMotor]. *)
Lemma step_returned_loop fuel steps_to_move b this' b' :
  steps_to_move <> 0 ->
  step clock fuel this steps_to_move b = Returned (this', b') ->
  exists b1,
    step_loop clock fuel this (- Z.sgn steps_to_move) (Z.abs steps_to_move) 0 b
    = Returned b1
    /\ b' = resetMotor this b1.
Proof.
  intros Hnz Hret.
  pose proof (step_returned_range clock this _ _ _ _ Hnz Hret) as Hrange.
  rewrite step_nonzero in Hret by assumption.
  destruct (step_loop clock fuel this (- Z.sgn steps_to_move) (Z.abs steps_to_move) 0 b)
    as [b1| | |] eqn:Hloop; simpl in Hret; try discriminate.
  injection Hret as _ <-. exists b1. auto.
Qed.

End MoveBoard.

(** X9: a move with a nonzero count that returned leaves every pin of
    the board at the level [resetMotor] alone would have left it at: the
    four pins low, every other pin untouched. *)
Theorem step_levels_as_resetMotor {abi : ABI} clock fuel this steps_to_move b this' b' :
  steps_to_move <> 0 ->
  step clock fuel this steps_to_move b = Returned (this', b') ->
  levels b' = levels (resetMotor this b)
  /\ forall p, p ∉ motor_pins this -> levels b' !! p = levels b !! p.
Proof.
  intros Hnz Hret.
  destruct (step_returned_loop clock this _ _ _ _ _ Hnz Hret) as (b1 & Hloop & ->).
  destruct (step_loop_board clock this _ _ _ _ _ _ Hloop) as (Hframe & _).
  assert (Hall : forall p, levels (resetMotor this b1) !! p
                           = levels (resetMotor this b) !! p).
  { intros p. rewrite !levels_resetMotor_cases.
    case_decide as Hp; [reflexivity | now apply Hframe]. }
  split; [apply map_eq, Hall|].
  intros p Hp. rewrite Hall, levels_resetMotor_cases.
  case_decide; [contradiction | reflexivity].
Qed.

Lemma step_levels_as_resetMotor_witness :
  5 <> 0
  /\ exists b',
       @step AVR (bench_clock 0) 40 bench_motor 5 bench_board
       = Returned (bench_motor, b')
       /\ levels b' = levels (resetMotor bench_motor bench_board)
       /\ forall p, p ∉ motor_pins bench_motor ->
                    levels b' !! p = levels bench_board !! p.
Proof.
  assert (H1 : 5 <> 0) by lia.
  split; [exact H1|].
  eexists. split; [vm_compute; reflexivity|].
  apply (@step_levels_as_resetMotor AVR (bench_clock 0) 40%nat bench_motor 5
           bench_board bench_motor); [exact H1 | vm_compute; reflexivity].
Defined.

Lemma elem_of_concat {A} (x : A) (ls : list (list A)) :
  x ∈ concat ls -> exists l, x ∈ l /\ l ∈ ls.
Proof.
  induction ls as [|l ls IH]; simpl.
  - intros Hx. now apply elem_of_nil in Hx.
  - rewrite elem_of_app. intros [Hx|Hx].
    + exists l. split; [exact Hx | apply elem_of_cons; auto].
    + destruct (IH Hx) as (l' & Hl' & Hin).
      exists l'. split; [exact Hl' | apply elem_of_cons; auto].
Qed.

Lemma phase_pattern_pins this thisStep p v :
  0 <= thisStep < 4 -> (p, v) ∈ phase_pattern this thisStep ->
  p ∈ motor_pins this /\ (v = LOW \/ v = HIGH).
Proof.
  intros Hstep.
  assert (Hcases : thisStep = 0 \/ thisStep = 1 \/ thisStep = 2 \/ thisStep = 3) by lia.
  rewrite elem_of_motor_pins.
  destruct Hcases as [-> | [-> | [-> | ->]]];
    unfold phase_pattern; rewrite motor_pins_unfold; simpl;
    rewrite !elem_of_cons, elem_of_nil;
    intros [H|[H|[H|[H|[]]]]]; injection H as -> ->; auto.
Qed.

(** X10: the pin writes of a move with a nonzero count that returned do
    not depend on the clock: they are the patterns of the phases of the
    move, one after the other, followed by the four [LOW] of [resetMotor];
    that is four writes for each step and four more, every one of them to
    one of the four pins, with the level [LOW] or [HIGH]. *)
Theorem step_pin_writes {abi : ABI} clock fuel this steps_to_move b this' b' :
  steps_to_move <> 0 ->
  step clock fuel this steps_to_move b = Returned (this', b') ->
  exists evs,
    log b' = log b ++ evs
    /\ pin_writes evs
       = concat (phase_pattern this
                   <$> phases (- Z.sgn steps_to_move) (Z.to_nat (Z.abs steps_to_move)))
         ++ reset_pattern this
    /\ length (pin_writes evs) = (4 * Z.to_nat (Z.abs steps_to_move) + 4)%nat
    /\ forall p v, (p, v) ∈ pin_writes evs ->
                   p ∈ motor_pins this /\ (v = LOW \/ v = HIGH).
Proof.
  intros Hnz Hret.
  destruct (step_returned clock this _ _ _ _ _ Hnz Hret)
    as (_ & evs & Hlog & Hrun & _).
  exists (evs ++ EvResetMotor :: motor_writes this (fun _ => LOW)).
  assert (Hwrites : pin_writes (evs ++ EvResetMotor :: motor_writes this (fun _ => LOW))
                    = concat (phase_pattern this
                                <$> phases (- Z.sgn steps_to_move)
                                      (Z.to_nat (Z.abs steps_to_move)))
                      ++ reset_pattern this).
  { rewrite pin_writes_app, pin_writes_reset.
    now rewrite (loop_run_pin_writes this _ _ _ _ Hrun). }
  split; [exact Hlog|]. split; [exact Hwrites|]. rewrite Hwrites. split.
  - rewrite length_app. simpl.
    generalize (Z.to_nat (Z.abs steps_to_move)). intros n.
    induction n as [|n IH]; [reflexivity|].
    change (phases (- Z.sgn steps_to_move) (S n))
      with ((Z.of_nat n * - Z.sgn steps_to_move) mod 4
              :: phases (- Z.sgn steps_to_move) n).
    rewrite fmap_cons. change (concat (?x :: ?l)) with (x ++ concat l).
    rewrite length_app.
    change (length (phase_pattern this _)) with 4%nat. lia.
  - intros p v. rewrite elem_of_app. intros [Hin|Hin].
    + apply elem_of_concat in Hin as (pat & Hin & Hpat).
      apply list_elem_of_fmap in Hpat as (ph & -> & Hph).
      apply phases_range in Hph. now apply (phase_pattern_pins this ph).
    + unfold reset_pattern in Hin.
      apply list_elem_of_fmap in Hin as (q & [= -> ->] & Hq). auto.
Qed.

Lemma step_pin_writes_witness :
  -2 <> 0
  /\ exists b',
       @step ILP32 (bench_clock 0) 40 bench_motor (-2) bench_board
       = Returned (bench_motor, b')
       /\ exists evs,
            log b' = log bench_board ++ evs
            /\ pin_writes evs
               = concat (phase_pattern bench_motor
                           <$> phases (- Z.sgn (-2)) (Z.to_nat (Z.abs (-2))))
                 ++ reset_pattern bench_motor
            /\ length (pin_writes evs) = (4 * Z.to_nat (Z.abs (-2)) + 4)%nat
            /\ forall p v, (p, v) ∈ pin_writes evs ->
                           p ∈ motor_pins bench_motor /\ (v = LOW \/ v = HIGH).
Proof.
  assert (H1 : -2 <> 0) by lia.
  split; [exact H1|].
  eexists. split; [vm_compute; reflexivity|].
  apply (@step_pin_writes ILP32 (bench_clock 0) 40%nat bench_motor (-2)
           bench_board bench_motor); [exact H1 | vm_compute; reflexivity].
Defined.

(** ** Where [step] is defined *)

Section Defined.
Context {abi : ABI}.
Variable clock : nat -> Z.
Variable this : Stepper.
Variable direction : Z.
Hypothesis Hdelay : to_int (step_delay this) <= INT_MAX - 900.
Hypothesis Hdirection : direction = 1 \/ direction = -1.

Lemma required_wait_defined steps_left :
  0 < steps_left -> exists esti, required_wait this steps_left = Returned esti.
Proof.
  intros Hpos. pose proof int_half_ge as Hh.
  pose proof (to_int_range (step_delay this)) as Hr.
  unfold required_wait. destruct (steps_left <? 10) eqn:Hten.
  - apply Z.ltb_lt in Hten.
    rewrite as_int_fits by (unfold INT_MIN, INT_MAX in *; lia). simpl.
    rewrite as_int_fits by (unfold INT_MIN, INT_MAX in *; lia). eauto.
  - eexists. reflexivity.
Qed.

(** No pass of the loop overflows or divides by zero. *)
Lemma step_loop_defined fuel : forall steps_left last_step_time b,
  steps_left <= INT_MAX ->
  step_loop clock fuel this direction steps_left last_step_time b = Polling
  \/ exists b',
       step_loop clock fuel this direction steps_left last_step_time b = Returned b'.
Proof.
  pose proof int_half_ge as Hh.
  induction fuel as [|fuel IH]; intros steps_left last b Hmax; simpl;
    destruct (0 <? steps_left) eqn:Hpos; try (left; reflexivity);
    try (right; eexists; reflexivity).
  apply Z.ltb_lt in Hpos.
  destruct (required_wait_defined steps_left Hpos) as [esti ->]. simpl.
  destruct (esti <=? _).
  - rewrite as_int_fits by (unfold INT_MIN, INT_MAX in *; lia). simpl.
    rewrite phase_index_fits
      by (unfold INT_MIN, INT_MAX in *; destruct Hdirection; subst; lia).
    simpl. apply IH. lia.
  - apply IH. lia.
Qed.

End Defined.

(** X11: [step] is undefined when the magnitude of the count is not an
    [int], as for the most negative [int]; for every other count, and a
    delay that the loop reads as an [int] of at most [INT_MAX - 900],
    nothing in [step] overflows or divides by zero, whatever the clock
    shows and however long the loop is followed: the call has returned,
    with the driver unchanged, or is still polling. *)
Theorem step_defined_within_int {abi : ABI} clock fuel this steps_to_move b :
  (INT_MAX < Z.abs steps_to_move -> step clock fuel this steps_to_move b = Undefined)
  /\ (Z.abs steps_to_move <= INT_MAX ->
      to_int (step_delay this) <= INT_MAX - 900 ->
      step clock fuel this steps_to_move b = Polling
      \/ exists b', step clock fuel this steps_to_move b = Returned (this, b')).
Proof.
  pose proof int_half_ge as Hh. split.
  - intros Hbig. unfold step.
    assert (Hnz : (steps_to_move =? 0) = false)
      by (apply Z.eqb_neq; unfold INT_MAX in Hbig; lia).
    rewrite Hnz. simpl. unfold as_int.
    assert (Hhi : (Z.abs steps_to_move <=? INT_MAX) = false) by (apply Z.leb_gt; lia).
    now rewrite Hhi, andb_false_r.
  - intros Hfit Hdelay.
    destruct (Z.eq_dec steps_to_move 0) as [->|Hnz].
    + right. exists b. reflexivity.
    + rewrite step_nonzero by (unfold INT_MIN, INT_MAX in *; lia).
      destruct (step_loop_defined clock this (- Z.sgn steps_to_move) Hdelay
                  (direction_unit _ Hnz) fuel (Z.abs steps_to_move) 0 b Hfit)
        as [-> | [b' ->]].
      * left. reflexivity.
      * right. eexists. reflexivity.
Qed.

Lemma step_defined_within_int_witness :
  (@INT_MAX AVR < Z.abs (-32768)
   /\ Z.abs 32767 <= @INT_MAX AVR
   /\ @to_int AVR (step_delay bench_motor) <= @INT_MAX AVR - 900)
  /\ @step AVR (bench_clock 0) 9 bench_motor (-32768) bench_board = Undefined
  /\ (@step AVR (bench_clock 0) 9 bench_motor 32767 bench_board = Polling
      \/ exists b', @step AVR (bench_clock 0) 9 bench_motor 32767 bench_board
                    = Returned (bench_motor, b')).
Proof.
  assert (H1 : @INT_MAX AVR < Z.abs (-32768)) by (vm_compute; reflexivity).
  assert (H2 : Z.abs 32767 <= @INT_MAX AVR) by (vm_compute; congruence).
  assert (H3 : @to_int AVR (step_delay bench_motor) <= @INT_MAX AVR - 900)
    by (vm_compute; congruence).
  split; [repeat split; assumption|]. split.
  - exact (proj1 (@step_defined_within_int AVR (bench_clock 0) 9 bench_motor (-32768)
                    bench_board) H1).
  - exact (proj2 (@step_defined_within_int AVR (bench_clock 0) 9 bench_motor 32767
                    bench_board) H2 H3).
Defined.

(** ** The first step of a move *)

(** X12: the first step of a move is held back as well, measured from
    the time stamp [0] the loop starts with: [stepMotor] is first called
    at a reading of the counter that, taken as the [int] the loop
    compares, is at least the wait the loop computed for its first pass
    (the delay read into an [int], with the bonus of that pass), however
    long ago the move before ended.  Where the delay is not negative and
    fits an [int] with the bonus of 900, that wait is the step delay with
    the bonus of the first pass, and the reading is at least as much as
    the [unsigned long] it is, too. *)
Theorem first_step_waits_for_counter {abi : ABI}
    clock fuel this steps_to_move b this' b' :
  steps_to_move <> 0 ->
  step clock fuel this steps_to_move b = Returned (this', b') ->
  exists evs t0 esti,
    log b' = log b ++ evs
    /\ stamps evs !! 0%nat = Some t0
    /\ required_wait this (Z.abs steps_to_move) = Returned esti
    /\ esti = to_int (step_delay this)
              + (if Z.abs steps_to_move <? 10 then Z.abs steps_to_move * 100 else 0)
    /\ esti <= time_left t0 0
    /\ (0 <= step_delay this <= INT_MAX - 900 ->
        esti = delay_for this (Z.abs steps_to_move)
        /\ delay_for this (Z.abs steps_to_move) <= to_ulong t0).
Proof.
  intros Hnz Hret.
  destruct (step_effects clock this _ _ _ _ _ Hnz Hret)
    as (_ & evs & Hlog & Hemitted & Hpaced & _).
  assert (Hlen : length (stamps evs) = Z.to_nat (Z.abs steps_to_move)).
  { unfold stamps. now rewrite length_stamps_from, Hemitted, length_phases. }
  destruct (stamps evs) as [|t0 ts] eqn:Hstamps; [simpl in Hlen; lia|].
  destruct Hpaced as [(esti & Hwait & Hdue) _].
  exists evs, t0, esti. split; [exact Hlog|]. split; [now rewrite Hstamps|].
  split; [exact Hwait|]. split; [|split; [exact Hdue|]].
  - revert Hwait. unfold required_wait.
    destruct (Z.abs steps_to_move <? 10).
    + destruct (as_int (Z.abs steps_to_move * 100)) as [x| | |] eqn:Hx;
        simpl; try discriminate.
      apply as_int_returned in Hx as [-> _].
      intros Hsum. now apply as_int_returned in Hsum as [-> _].
    + intros [= <-]. lia.
  - intros Hfits.
    assert (Hpos : 0 < Z.abs steps_to_move) by lia.
    pose proof (due_is_not_early this Hfits _ _ _ _ Hpos Hwait Hdue) as Hlate.
    rewrite Z.sub_0_r in Hlate.
    rewrite (required_wait_fits this Hfits) in Hwait by lia.
    injection Hwait as <-. auto.
Qed.

Lemma first_step_waits_for_counter_witness :
  (3 <> 0 /\ 0 <= step_delay bench_motor <= @INT_MAX ILP32 - 900)
  /\ exists b',
       @step ILP32 (bench_clock 123) 40 bench_motor 3 bench_board
       = Returned (bench_motor, b')
       /\ exists evs t0 esti,
            log b' = log bench_board ++ evs
            /\ stamps evs !! 0%nat = Some t0
            /\ @required_wait ILP32 bench_motor (Z.abs 3) = Returned esti
            /\ esti = @to_int ILP32 (step_delay bench_motor)
                      + (if Z.abs 3 <? 10 then Z.abs 3 * 100 else 0)
            /\ esti <= @time_left ILP32 t0 0
            /\ (0 <= step_delay bench_motor <= @INT_MAX ILP32 - 900 ->
                esti = delay_for bench_motor (Z.abs 3)
                /\ delay_for bench_motor (Z.abs 3) <= @to_ulong ILP32 t0).
Proof.
  assert (H1 : 3 <> 0) by lia.
  assert (H2 : 0 <= step_delay bench_motor <= @INT_MAX ILP32 - 900)
    by (vm_compute; split; congruence).
  split; [split; assumption|].
  eexists. split; [vm_compute; reflexivity|].
  apply (@first_step_waits_for_counter ILP32 (bench_clock 123) 40%nat bench_motor 3
           bench_board bench_motor); [exact H1 | vm_compute; reflexivity].
Defined.

(** ** One move after the other *)

Lemma head_phases direction n :
  head (phases direction (S n)) = Some ((Z.of_nat n * direction) mod 4).
Proof. reflexivity. Qed.

(** X13: two moves in a row hand to [stepMotor] the indices of the first
    followed by those of the second; the first move ends on index [0], and
    the second starts on the index next to [0] in its own direction of
    travel exactly when its count is a multiple of four: only then does
    the motor go on from where it stopped. *)
Theorem moves_in_a_row {abi : ABI} clock fuel1 fuel2 this s1 s2 b this1 b1 this2 b2 :
  s1 <> 0 -> s2 <> 0 ->
  step clock fuel1 this s1 b = Returned (this1, b1) ->
  step clock fuel2 this1 s2 b1 = Returned (this2, b2) ->
  exists evs1 evs2 first,
    log b2 = log b ++ evs1 ++ evs2
    /\ emitted (evs1 ++ evs2)
       = phases (- Z.sgn s1) (Z.to_nat (Z.abs s1))
         ++ phases (- Z.sgn s2) (Z.to_nat (Z.abs s2))
    /\ last (emitted evs1) = Some 0
    /\ head (emitted evs2) = Some first
    /\ (first = (0 + Z.sgn s2) mod 4 <-> s2 mod 4 = 0).
Proof.
  intros Hnz1 Hnz2 Hret1 Hret2.
  destruct (step_effects clock this _ _ _ _ _ Hnz1 Hret1)
    as (-> & evs1 & Hlog1 & Hemitted1 & _).
  destruct (step_effects clock this _ _ _ _ _ Hnz2 Hret2)
    as (_ & evs2 & Hlog2 & Hemitted2 & _).
  exists evs1, evs2, ((Z.of_nat (Z.to_nat (Z.abs s2 - 1)) * - Z.sgn s2) mod 4).
  split; [now rewrite Hlog2, Hlog1, <- app_assoc|].
  split; [now rewrite emitted_app, Hemitted1, Hemitted2|].
  rewrite Hemitted1, Hemitted2.
  replace (Z.to_nat (Z.abs s1)) with (S (Z.to_nat (Z.abs s1 - 1))) by lia.
  replace (Z.to_nat (Z.abs s2)) with (S (Z.to_nat (Z.abs s2 - 1))) by lia.
  split; [apply last_phases|]. split; [apply head_phases|].
  rewrite Z2Nat.id by lia.
  destruct (Z.lt_trichotomy s2 0) as [Hneg|[Hzero|Hpos]]; [| contradiction |].
  - rewrite Z.abs_neq, Z.sgn_neg by lia.
    Z.to_euclidean_division_equations. lia.
  - rewrite Z.abs_eq, Z.sgn_pos by lia.
    Z.to_euclidean_division_equations. lia.
Qed.

Lemma moves_in_a_row_witness :
  (2 <> 0 /\ -4 <> 0)
  /\ exists fuel1 fuel2 b1 b2,
       @step ILP32 (bench_clock 0) fuel1 bench_motor 2 bench_board
       = Returned (bench_motor, b1)
       /\ @step ILP32 (bench_clock 0) fuel2 bench_motor (-4) b1
          = Returned (bench_motor, b2)
       /\ exists evs1 evs2 first,
            log b2 = log bench_board ++ evs1 ++ evs2
            /\ emitted (evs1 ++ evs2)
               = phases (- Z.sgn 2) (Z.to_nat (Z.abs 2))
                 ++ phases (- Z.sgn (-4)) (Z.to_nat (Z.abs (-4)))
            /\ last (emitted evs1) = Some 0
            /\ head (emitted evs2) = Some first
            /\ (first = (0 + Z.sgn (-4)) mod 4 <-> -4 mod 4 = 0).
Proof.
  assert (H1 : 2 <> 0) by lia.
  assert (H2 : -4 <> 0) by lia.
  assert (H3 : @INT_MIN ILP32 < 2 <= @INT_MAX ILP32) by (vm_compute; split; congruence).
  assert (H4 : @INT_MIN ILP32 < -4 <= @INT_MAX ILP32) by (vm_compute; split; congruence).
  assert (H5 : 0 <= step_delay bench_motor) by (simpl; lia).
  assert (H6 : step_delay bench_motor + 900 + 1000 <= @INT_MAX ILP32 + 1)
    by (vm_compute; congruence).
  split; [split; assumption|].
  destruct (@step_returns ILP32 (bench_clock 0) bench_motor 1000 2 bench_board
              H3 H5 H6 (bench_clock_ticking 0)) as (fuel1 & b1 & Hret1).
  destruct (@step_returns ILP32 (bench_clock 0) bench_motor 1000 (-4) b1
              H4 H5 H6 (bench_clock_ticking 0)) as (fuel2 & b2 & Hret2).
  exists fuel1, fuel2, b1, b2. split; [exact Hret1|]. split; [exact Hret2|].
  exact (@moves_in_a_row ILP32 (bench_clock 0) fuel1 fuel2 bench_motor 2 (-4)
           bench_board bench_motor b1 bench_motor b2 H1 H2 Hret1 Hret2).
Defined.

(** ** How long a move takes *)

Lemma total_delay_from_nine this n :
  (9 <= n)%nat -> total_delay this n = Z.of_nat n * step_delay this + 4500.
Proof.
  induction 1 as [|n Hn IH].
  - unfold total_delay, delay_for. simpl. lia.
  - change (total_delay this (S n))
      with (delay_for this (Z.of_nat (S n)) + total_delay this n).
    rewrite IH. unfold delay_for.
    assert (Hten : (Z.of_nat (S n) <? 10) = false) by (apply Z.ltb_ge; lia).
    rewrite Hten. lia.
Qed.

Section Duration.
Context {abi : ABI}.
Variable clock : nat -> Z.
Variable this : Stepper.
Variable direction : Z.
Hypothesis Hfits : 0 <= step_delay this <= INT_MAX - 900.
Hypothesis Hmono : forall k, clock k <= clock (S k).

Lemma clock_monotone i j : (i <= j)%nat -> clock i <= clock j.
Proof.
  induction 1 as [|j _ IH]; [lia|]. pose proof (Hmono j). lia.
Qed.

(** What the counter shows to have passed has passed. *)
Lemma wrapped_below_true i j :
  (i <= j)%nat ->
  to_ulong (to_ulong (clock j) - to_ulong (clock i)) <= clock j - clock i.
Proof.
  intros Hij. apply clock_monotone in Hij.
  pose proof long_half_ge as Hh. pose proof long_pow_double as Hd.
  unfold to_ulong. rewrite <- Zminus_mod.
  apply Z.mod_le; lia.
Qed.

(** Once a step has been made at call number [j0] of [micros()], the
    loop does not come to its end before the delays of all the steps
    still to go have passed. *)
Lemma step_loop_duration fuel : forall steps_left j0 b b',
  0 <= steps_left ->
  (j0 < polls b)%nat ->
  step_loop clock fuel this direction steps_left (to_ulong (clock j0)) b = Returned b' ->
  (polls b <= polls b')%nat
  /\ total_delay this (Z.to_nat steps_left) <= clock (pred (polls b')) - clock j0.
Proof.
  induction fuel as [|fuel IH]; intros steps_left j0 b b' Hnonneg Hj0; simpl;
    unfold mret, outcome_ret;
    destruct (0 <? steps_left) eqn:Hpos; try discriminate.
  - intros [= <-]. apply Z.ltb_ge in Hpos.
    replace (Z.to_nat steps_left) with O by lia.
    split; [lia|]. simpl.
    assert (clock j0 <= clock (pred (polls b))) by (apply clock_monotone; lia). lia.
  - apply Z.ltb_lt in Hpos.
    destruct (required_wait this steps_left) as [esti| | |] eqn:Hwait;
      simpl; try discriminate.
    destruct (esti <=? time_left (to_ulong (clock (polls b))) (to_ulong (clock j0)))
      eqn:Hdue.
    + apply Z.leb_le in Hdue.
      destruct (as_int (steps_left - 1)) as [m| | |] eqn:Hm; simpl; try discriminate.
      apply as_int_returned in Hm as [-> _].
      destruct (phase_index (steps_left - 1) direction) as [steps| | |] eqn:Hph;
        simpl; try discriminate.
      intros Hrun.
      apply (IH (steps_left - 1) (polls b)) in Hrun as [Hpolls Htotal];
        [| lia | rewrite polls_stepMotor; simpl; lia].
      rewrite polls_stepMotor in Hpolls. simpl in Hpolls.
      split; [lia|].
      replace (Z.to_nat steps_left) with (S (Z.to_nat (steps_left - 1))) by lia.
      change (total_delay this (S (Z.to_nat (steps_left - 1))))
        with (delay_for this (Z.of_nat (S (Z.to_nat (steps_left - 1))))
              + total_delay this (Z.to_nat (steps_left - 1))).
      replace (Z.of_nat (S (Z.to_nat (steps_left - 1)))) with steps_left by lia.
      pose proof (due_is_not_early this Hfits _ _ _ _ Hpos Hwait Hdue) as Hlate.
      pose proof (wrapped_below_true j0 (polls b) ltac:(lia)) as Htrue.
      lia.
    + intros Hrun.
      apply (IH steps_left j0) in Hrun as [Hpolls Htotal]; [| lia | simpl; lia].
      simpl in Hpolls. split; [lia | exact Htotal].
  - intros [= <-]. apply Z.ltb_ge in Hpos.
    replace (Z.to_nat steps_left) with O by lia.
    split; [lia|]. simpl.
    assert (clock j0 <= clock (pred (polls b))) by (apply clock_monotone; lia). lia.
Qed.

(** The same from the start of a move, where the time stamp is [0]: the
    delay of the first step does not count. *)
Lemma step_loop_duration_from_start fuel : forall steps_left b b',
  0 < steps_left ->
  step_loop clock fuel this direction steps_left 0 b = Returned b' ->
  (polls b < polls b')%nat
  /\ total_delay this (Z.to_nat (steps_left - 1))
     <= clock (pred (polls b')) - clock (polls b).
Proof.
  induction fuel as [|fuel IH]; intros steps_left b b' Hpos; simpl;
    unfold mret, outcome_ret;
    destruct (0 <? steps_left) eqn:Hpos'; try discriminate;
    try (apply Z.ltb_ge in Hpos'; lia).
  destruct (required_wait this steps_left) as [esti| | |] eqn:Hwait;
    simpl; try discriminate.
  destruct (esti <=? time_left (to_ulong (clock (polls b))) 0) eqn:Hdue.
  - destruct (as_int (steps_left - 1)) as [m| | |] eqn:Hm; simpl; try discriminate.
    apply as_int_returned in Hm as [-> _].
    destruct (phase_index (steps_left - 1) direction) as [steps| | |] eqn:Hph;
      simpl; try discriminate.
    intros Hrun.
    apply (step_loop_duration fuel (steps_left - 1) (polls b)) in Hrun
      as [Hpolls Htotal]; [| lia | rewrite polls_stepMotor; simpl; lia].
    rewrite polls_stepMotor in Hpolls. simpl in Hpolls.
    split; [lia | exact Htotal].
  - intros Hrun. apply IH in Hrun as [Hpolls Htotal]; [|exact Hpos].
    simpl in Hpolls, Htotal. pose proof (Hmono (polls b)).
    split; lia.
Qed.

End Duration.

(** X14: a move is never faster than the speed set.  On a clock that
    does not run backwards, and with a delay that fits the [int] of the
    loop, the time on the clock between the first reading of a move that
    returned and its last is at least the sum of the delays of all its
    steps but the first; for a move of ten steps or more that is
    [|steps_to_move| - 1] step delays and 4500 microseconds of bonus. *)
Theorem step_takes_its_time {abi : ABI} clock fuel this steps_to_move b this' b' :
  steps_to_move <> 0 ->
  0 <= step_delay this <= INT_MAX - 900 ->
  (forall k, clock k <= clock (S k)) ->
  step clock fuel this steps_to_move b = Returned (this', b') ->
  (polls b < polls b')%nat
  /\ total_delay this (Z.to_nat (Z.abs steps_to_move - 1))
     <= clock (pred (polls b')) - clock (polls b)
  /\ (10 <= Z.abs steps_to_move ->
      (Z.abs steps_to_move - 1) * step_delay this + 4500
      <= clock (pred (polls b')) - clock (polls b)).
Proof.
  intros Hnz Hfits Hmono Hret.
  destruct (step_returned_loop clock this _ _ _ _ _ Hnz Hret) as (b1 & Hloop & ->).
  apply (step_loop_duration_from_start clock this _ Hfits Hmono) in Hloop
    as [Hpolls Htotal]; [|lia].
  change (polls (resetMotor this b1)) with (polls b1).
  split; [exact Hpolls|]. split; [exact Htotal|].
  intros Hten. rewrite total_delay_from_nine in Htotal by lia.
  rewrite Z2Nat.id in Htotal by lia. exact Htotal.
Qed.

Lemma step_takes_its_time_witness :
  (12 <> 0
   /\ 0 <= step_delay bench_motor <= @INT_MAX AVR - 900
   /\ (forall k, bench_clock 0 k <= bench_clock 0 (S k)))
  /\ exists b',
       @step AVR (bench_clock 0) 100 bench_motor 12 bench_board
       = Returned (bench_motor, b')
       /\ (polls bench_board < polls b')%nat
       /\ total_delay bench_motor (Z.to_nat (Z.abs 12 - 1))
          <= bench_clock 0 (pred (polls b')) - bench_clock 0 (polls bench_board)
       /\ (10 <= Z.abs 12 ->
           (Z.abs 12 - 1) * step_delay bench_motor + 4500
           <= bench_clock 0 (pred (polls b')) - bench_clock 0 (polls bench_board)).
Proof.
  assert (H1 : 12 <> 0) by lia.
  assert (H2 : 0 <= step_delay bench_motor <= @INT_MAX AVR - 900)
    by (vm_compute; split; congruence).
  assert (H3 : forall k, bench_clock 0 k <= bench_clock 0 (S k))
    by (intros k; unfold bench_clock; lia).
  split; [repeat split; try assumption; apply H2|].
  eexists. split; [vm_compute; reflexivity|].
  apply (@step_takes_its_time AVR (bench_clock 0) 100%nat bench_motor 12
           bench_board bench_motor); [exact H1 | exact H2 | exact H3 |].
  vm_compute. reflexivity.
Defined.

(** ** The comparison of the loop, in range *)

(** X15: as long as the time that has really passed between the time
    stamp and the reading is not negative and is an [int], the loop sees
    exactly that time, also when the counter has wrapped in between, and
    so finds the wait over exactly when it is. *)
Theorem time_left_is_true_time {abi : ABI} t_last t_now esti :
  0 <= t_now - t_last <= INT_MAX ->
  time_left (to_ulong t_now) (to_ulong t_last) = t_now - t_last
  /\ (esti <= time_left (to_ulong t_now) (to_ulong t_last) <-> esti <= t_now - t_last).
Proof.
  intros Htrue. pose proof int_half_ge as Hh.
  assert (Heq : time_left (to_ulong t_now) (to_ulong t_last) = t_now - t_last).
  { unfold time_left, to_ulong.
    rewrite <- Zminus_mod. fold (to_ulong (t_now - t_last)).
    rewrite to_int_to_ulong. apply to_int_fits.
    unfold INT_MIN, INT_MAX in *. lia. }
  rewrite Heq. tauto.
Qed.

Lemma time_left_is_true_time_witness :
  0 <= (2 ^ 32 + 4900) - (2 ^ 32 - 100) <= @INT_MAX AVR
  /\ @time_left AVR (@to_ulong AVR (2 ^ 32 + 4900)) (@to_ulong AVR (2 ^ 32 - 100))
     = (2 ^ 32 + 4900) - (2 ^ 32 - 100)
  /\ (5100 <= @time_left AVR (@to_ulong AVR (2 ^ 32 + 4900))
                (@to_ulong AVR (2 ^ 32 - 100))
      <-> 5100 <= (2 ^ 32 + 4900) - (2 ^ 32 - 100)).
Proof.
  assert (H1 : 0 <= (2 ^ 32 + 4900) - (2 ^ 32 - 100) <= @INT_MAX AVR)
    by (vm_compute; split; congruence).
  split; [exact H1|].
  exact (@time_left_is_true_time AVR (2 ^ 32 - 100) (2 ^ 32 + 4900) 5100 H1).
Defined.

(** ** The readings of the clock *)

(** X16: a move with a nonzero count that returned has read the clock
    once in each pass of its loop and nowhere else: the readings in its
    log are as many as the calls of [micros()] the board counts, at least
    one for each step, and no more than the passes the loop was
    followed for. *)
Theorem step_reads_the_clock {abi : ABI} clock fuel this steps_to_move b this' b' :
  steps_to_move <> 0 ->
  step clock fuel this steps_to_move b = Returned (this', b') ->
  exists evs,
    log b' = log b ++ evs
    /\ length (clock_reads evs) = (polls b' - polls b)%nat
    /\ (Z.to_nat (Z.abs steps_to_move) <= length (clock_reads evs) <= fuel)%nat.
Proof.
  intros Hnz Hret.
  destruct (step_returned_loop clock this _ _ _ _ _ Hnz Hret) as (b1 & Hloop & ->).
  destruct (step_loop_board clock this _ _ _ _ _ _ Hloop)
    as (_ & Hpolls & evs & Hlog & Hreads).
  destruct (step_loop_run clock this _ _ _ _ _ _ Hloop) as (evs' & Hlog' & Hrun).
  assert (evs' = evs) as -> by (rewrite Hlog in Hlog'; now apply app_inv_head in Hlog').
  pose proof (loop_run_reads this _ _ _ _ Hrun) as Hmore.
  rewrite (loop_run_emitted this _ _ _ _ Hrun), length_phases in Hmore.
  exists (evs ++ EvResetMotor :: motor_writes this (fun _ => LOW)).
  split; [now rewrite log_resetMotor, Hlog, <- app_assoc|].
  rewrite clock_reads_app.
  change (clock_reads (EvResetMotor :: motor_writes this (fun _ => LOW))) with (@nil Z).
  rewrite app_nil_r. change (polls (resetMotor this b1)) with (polls b1).
  split; [exact Hreads | lia].
Qed.

Lemma step_reads_the_clock_witness :
  -3 <> 0
  /\ exists b',
       @step ILP32 (bench_clock 0) 40 bench_motor (-3) bench_board
       = Returned (bench_motor, b')
       /\ exists evs,
            log b' = log bench_board ++ evs
            /\ length (clock_reads evs) = (polls b' - polls bench_board)%nat
            /\ (Z.to_nat (Z.abs (-3)) <= length (clock_reads evs) <= 40)%nat.
Proof.
  assert (H1 : -3 <> 0) by lia.
  split; [exact H1|].
  eexists. split; [vm_compute; reflexivity|].
  apply (@step_reads_the_clock ILP32 (bench_clock 0) 40%nat bench_motor (-3)
           bench_board bench_motor); [exact H1 | vm_compute; reflexivity].
Defined.

(** ** No way out of the loop but stepping *)

Section Stall.
Context {abi : ABI}.
Variable clock : nat -> Z.
Variable this : Stepper.
Variable direction : Z.

Lemma step_loop_stalls fuel : forall steps_left last_step_time esti b,
  0 < steps_left ->
  required_wait this steps_left = Returned esti ->
  (forall k, (k < fuel)%nat ->
     time_left (to_ulong (clock (polls b + k))) last_step_time < esti) ->
  step_loop clock fuel this direction steps_left last_step_time b = Polling.
Proof.
  induction fuel as [|fuel IH]; intros steps_left last esti b Hpos Hwait Hearly; simpl;
    apply Z.ltb_lt in Hpos as Hpos'; rewrite Hpos'; [reflexivity|].
  rewrite Hwait. simpl.
  pose proof (Hearly O ltac:(lia)) as Hnow. rewrite Nat.add_0_r in Hnow.
  apply Z.leb_gt in Hnow. rewrite Hnow.
  apply (IH steps_left last esti); [assumption | assumption |].
  intros k Hk. simpl polls.
  replace (S (polls b) + k)%nat with (polls b + S k)%nat by lia.
  apply Hearly. lia.
Qed.

End Stall.

(** X17: [step] has no time-out and no other way out of its loop.  For
    a nonzero count whose magnitude is an [int], and with [esti] the wait
    the loop computes for its first pass (the delay read into an [int],
    with the bonus of that pass): as long as every reading of the
    counter, taken as the [int] the loop compares, is below [esti], the
    move is still polling and has not stepped, however many passes that
    takes. *)
Theorem step_has_no_timeout {abi : ABI} clock fuel this steps_to_move esti b :
  steps_to_move <> 0 ->
  INT_MIN < steps_to_move <= INT_MAX ->
  required_wait this (Z.abs steps_to_move) = Returned esti ->
  (forall k, (k < fuel)%nat ->
     time_left (to_ulong (clock (polls b + k)%nat)) 0 < esti) ->
  step clock fuel this steps_to_move b = Polling.
Proof.
  intros Hnz Hrange Hwait Hearly.
  rewrite step_nonzero by assumption.
  rewrite (step_loop_stalls clock this _ fuel _ 0 esti b); [reflexivity | lia | | ];
    assumption.
Qed.

Lemma step_has_no_timeout_witness :
  (1 <> 0
   /\ @INT_MIN ILP32 < 1 <= @INT_MAX ILP32
   /\ @required_wait ILP32 bench_motor (Z.abs 1) = Returned 5100
   /\ (forall k, (k < 5000)%nat ->
         @time_left ILP32
           (@to_ulong ILP32 (bench_clock 2147516416 (polls bench_board + k)%nat)) 0
         < 5100))
  /\ @step ILP32 (bench_clock 2147516416) 5000 bench_motor 1 bench_board = Polling.
Proof.
  assert (H1 : 1 <> 0) by lia.
  assert (H2 : @INT_MIN ILP32 < 1 <= @INT_MAX ILP32) by (vm_compute; split; congruence).
  assert (H3 : @required_wait ILP32 bench_motor (Z.abs 1) = Returned 5100) by reflexivity.
  assert (H4 : forall k, (k < 5000)%nat ->
            @time_left ILP32
              (@to_ulong ILP32 (bench_clock 2147516416 (polls bench_board + k)%nat)) 0
            < 5100).
  { intros k Hk. rewrite time_left_of_clock, Z.sub_0_r. unfold bench_clock.
    change (polls bench_board) with O. rewrite Nat.add_0_l.
    replace (2147516416 + 1000 * Z.of_nat k)
      with ((-2147450880 + 1000 * Z.of_nat k) + 1 * 2 ^ (@int_bits ILP32))
      by (change (2 ^ @int_bits ILP32) with 4294967296; lia).
    rewrite to_int_periodic.
    rewrite to_int_fits; [lia|].
    change (@INT_MIN ILP32) with (-2147483648).
    change (@INT_MAX ILP32) with 2147483647. lia. }
  split; [repeat split; try assumption; apply H2|].
  exact (@step_has_no_timeout ILP32 (bench_clock 2147516416) 5000 bench_motor 1 5100
           bench_board H1 H2 H3 H4).
Defined.

(** ** A move on a clock that keeps going *)

(** X18: for a nonzero [steps_to_move] whose magnitude is an [int], a
    step delay that is not negative and fits the [int] of the loop with
    the bonus of 900 and the distance [D] between two readings, and a
    clock that never runs backwards, whose consecutive readings are at
    most [D] apart and that does not stand still, [step] returns, and a
    call that returned has called [stepMotor] exactly [|steps_to_move|]
    times, each call after the first only once the counter showed at
    least the step delay (with the bonus of its pass) since the call
    before. *)
Theorem step_issues_every_step_in_time {abi : ABI} D clock this steps_to_move b :
  steps_to_move <> 0 ->
  INT_MIN < steps_to_move <= INT_MAX ->
  0 <= step_delay this ->
  step_delay this + 900 + D <= INT_MAX + 1 ->
  ticking D clock ->
  (exists fuel b', step clock fuel this steps_to_move b = Returned (this, b'))
  /\ (forall fuel this' b',
        step clock fuel this steps_to_move b = Returned (this', b') ->
        exists evs,
          log b' = log b ++ evs
          /\ length (emitted evs) = Z.to_nat (Z.abs steps_to_move)
          /\ forall k t t',
               stamps evs !! k = Some t -> stamps evs !! S k = Some t' ->
               delay_for this (Z.abs steps_to_move - Z.of_nat (S k))
               <= to_ulong (t' - t)).
Proof.
  intros Hnz Hrange Hdelay Hroom Hticking. split.
  - now apply (step_returns clock this D).
  - intros fuel this' b' Hret.
    destruct (step_effects clock this _ _ _ _ _ Hnz Hret)
      as (_ & evs & Hlog & Hemitted & Hpaced & _).
    assert (Hlen : length (emitted evs) = Z.to_nat (Z.abs steps_to_move))
      by (now rewrite Hemitted, length_phases).
    exists evs. split; [exact Hlog|]. split; [exact Hlen|].
    intros k t t' Hk Hk'.
    assert (Hlt : (S k < Z.to_nat (Z.abs steps_to_move))%nat).
    { apply lookup_lt_Some in Hk'. unfold stamps in Hk'.
      now rewrite length_stamps_from, Hlen in Hk'. }
    destruct (paced_lookup this _ _ _ _ _ _ Hpaced Hk Hk') as (esti & Hwait & Hdue).
    pose proof (distance_pos D clock Hticking) as HD.
    apply (due_is_not_early this) with (esti := esti); [lia | lia | exact Hwait | exact Hdue].
Qed.

Lemma step_issues_every_step_in_time_witness :
  (12 <> 0
   /\ @INT_MIN ILP32 < 12 <= @INT_MAX ILP32
   /\ 0 <= step_delay bench_motor
   /\ step_delay bench_motor + 900 + 1000 <= @INT_MAX ILP32 + 1
   /\ ticking 1000 (bench_clock 0))
  /\ (exists fuel b',
        @step ILP32 (bench_clock 0) fuel bench_motor 12 bench_board
        = Returned (bench_motor, b'))
  /\ (forall fuel this' b',
        @step ILP32 (bench_clock 0) fuel bench_motor 12 bench_board
        = Returned (this', b') ->
        exists evs,
          log b' = log bench_board ++ evs
          /\ length (emitted evs) = Z.to_nat (Z.abs 12)
          /\ forall k t t',
               stamps evs !! k = Some t -> stamps evs !! S k = Some t' ->
               delay_for bench_motor (Z.abs 12 - Z.of_nat (S k))
               <= @to_ulong ILP32 (t' - t)).
Proof.
  assert (H1 : 12 <> 0) by lia.
  assert (H2 : @INT_MIN ILP32 < 12 <= @INT_MAX ILP32) by (vm_compute; split; congruence).
  assert (H3 : 0 <= step_delay bench_motor) by (simpl; lia).
  assert (H4 : step_delay bench_motor + 900 + 1000 <= @INT_MAX ILP32 + 1)
    by (vm_compute; congruence).
  split; [repeat split; try assumption; try apply H2; apply bench_clock_ticking|].
  exact (@step_issues_every_step_in_time ILP32 1000 (bench_clock 0) bench_motor 12
           bench_board H1 H2 H3 H4 (bench_clock_ticking 0)).
Defined.
